(** * Matrix flop accounting and matrix-chain ordering

    A shallow embedding of the [Matrix] cost model and of
    [calc_optimal_mult_order] (the variant with the size guard, the ["M<i>"]
    default labels and the [" * "] operator token), together with the
    properties of the specification that concern them.

    Conventions of the embedding:
    - a C++ [int] is a [Z] kept in the range [-2^31, 2^31) by [int32], the
      two's-complement reduction that the arithmetic of the usual targets
      performs; every arithmetic operator of the source is one of [int_add],
      [int_sub], [int_mul].  (Signed overflow is undefined in C++: the
      section on overflow shows when none occurs.)
    - a [std::vector<std::vector<int>>] is a [list (list _)] read with
      stdpp's lookup and written with stdpp's insert; every access of the
      source is within bounds, which the invariants below make explicit;
    - [throw std::logic_error(msg)] is the outcome [Throws msg], a failed
      [assert] is [AssertFails], and a recursion that never comes back is
      [Diverges]. *)

From Stdlib Require Import ZArith Lia List String Ascii DecimalString.
From Stdlib Require DecimalPos DecimalZ.
From stdpp Require Import base tactics option list.

Local Open Scope string_scope.
Local Open Scope Z_scope.

(** ** The C++ [int] *)

Module Int.

Definition int_min : Z := - 2 ^ 31.
Definition int_max : Z := 2 ^ 31 - 1.

(** Reduction of an integer to the 32-bit two's-complement range. *)
Definition int32 (z : Z) : Z := (z + 2 ^ 31) mod 2 ^ 32 - 2 ^ 31.

Definition int_add (a b : Z) : Z := int32 (a + b).
Definition int_sub (a b : Z) : Z := int32 (a - b).
Definition int_mul (a b : Z) : Z := int32 (a * b).

(** The values an [int] can hold. *)
Definition in_int (z : Z) : Prop := int_min <= z <= int_max.

(** [std::to_string] on an [int]. *)
Definition to_string (z : Z) : string := NilZero.string_of_int (Z.to_int z).

End Int.
Export Int.

(** ** Outcomes of a call *)

Inductive outcome (A : Type) : Type :=
| Returns (a : A)
| Throws (what : string)
| AssertFails
| Diverges.

Arguments Returns {A} a.
Arguments Throws {A} what.
Arguments AssertFails {A}.
Arguments Diverges {A}.

(** ** The [Matrix] class *)

Record Matrix : Type := mkMatrix {
  m_nrow : Z;
  m_ncol : Z;
  m_flops : Z
}.

(** The public constructor [Matrix(nrow, ncol)]: no flops yet. *)
Definition Matrix_new (nrow ncol : Z) : Matrix := mkMatrix nrow ncol 0.

Definition get_nrow (m : Matrix) : Z := m_nrow m.
Definition get_ncol (m : Matrix) : Z := m_ncol m.
Definition get_flops (m : Matrix) : Z := m_flops m.

Definition calc_mat_add_flops (A B : Matrix) : Z :=
  int_mul (get_nrow A) (get_ncol B).

Definition calc_mat_mult_flops (A B : Matrix) : Z :=
  int_mul (int_mul (get_nrow A) (get_ncol A))
          (int_sub (int_mul 2 (get_ncol B)) 1).

Definition diff_dims_error (A B : Matrix) : string :=
  "A: " ++ to_string (get_nrow A) ++ "x" ++ to_string (get_ncol A) ++
  ", B: " ++ to_string (get_nrow B) ++ "x" ++ to_string (get_ncol B).

(** [Matrix::operator+] *)
Definition add (this other : Matrix) : outcome Matrix :=
  if negb (m_nrow this =? m_nrow other) || negb (m_ncol this =? m_ncol other)
  then Throws ("add: dimensions do not match: " ++ diff_dims_error this other)
  else Returns
         (mkMatrix (m_nrow this) (m_ncol this)
            (int_add (int_add (m_flops this) (m_flops other))
                     (calc_mat_add_flops this other))).

(** [Matrix::operator*] *)
Definition mult (this other : Matrix) : outcome Matrix :=
  if negb (m_ncol this =? m_nrow other)
  then Throws ("mult: dimensions do not match: " ++ diff_dims_error this other)
  else Returns
         (mkMatrix (m_nrow this) (m_ncol other)
            (int_add (int_add (m_flops this) (m_flops other))
                     (calc_mat_mult_flops this other))).

(** [Matrix::operator==] *)
Definition Matrix_eqb (this other : Matrix) : bool :=
  (m_nrow this =? m_nrow other) && (m_ncol this =? m_ncol other) &&
  (m_flops this =? m_flops other).

(** ** The chain-order optimizer *)

(** [for_each_adjacent_pair(first, last, func)], with a [func] whose body is
    an [assert]: the result is [false] as soon as one assertion fails. *)
Fixpoint for_each_adjacent_pair {A : Type} (l : list A) (func : A -> A -> bool)
  : bool :=
  match l with
  | x :: (y :: _) as rest => func x y && for_each_adjacent_pair rest func
  | _ => true
  end.

(** *** The two [n] x [n] tables

    Row and column indices are [std::size_t] values below [n]; they are
    natural numbers here, also where the source stores them in an [int]
    ([min_index], and the arguments of [order_to_string]). *)

Definition table_new {A : Type} (n : nat) (x : A) : list (list A) :=
  replicate n (replicate n x).

Definition table_get {A : Type} `{!Inhabited A}
    (t : list (list A)) (i j : nat) : A :=
  (t !!! i) !!! j.

Definition table_set {A : Type} (t : list (list A)) (i j : nat) (v : A)
  : list (list A) :=
  alter (fun row => <[j := v]> row) i t.

Record tables : Type := mkTables {
  min_cost : list (list Z);
  min_index : list (list nat)
}.

#[global] Instance Matrix_inhabited : Inhabited Matrix :=
  populate (Matrix_new 0 0).

Section Optimizer.

Variable mats : list Matrix.

(** [get_mat(i)], that is [*(mats.begin() + i)]. *)
Definition get_mat (i : nat) : Matrix := mats !!! i.

(** The value of [cost] in the innermost loop. *)
Definition split_cost (mc : list (list Z)) (i k j : nat) : Z :=
  int_add
    (int_add (table_get mc i k) (table_get mc (k + 1) j))
    (int_mul
       (int_mul (get_nrow (get_mat i)) (get_ncol (get_mat k)))
       (int_sub (int_mul 2 (get_ncol (get_mat j))) 1)).

(** One iteration of the loop on [k]. *)
Definition try_split (i j : nat) (st : tables) (k : nat) : tables :=
  let cost := split_cost (min_cost st) i k j in
  if cost <? table_get (min_cost st) i j
  then mkTables (table_set (min_cost st) i j cost)
                (table_set (min_index st) i j k)
  else st.

(** One iteration of the loop on [i]: the window [[i, j]] of [len] matrices. *)
Definition solve_window (len : nat) (st : tables) (i : nat) : tables :=
  let j := (i + len - 1)%nat in
  foldl (try_split i j)
        (mkTables (table_set (min_cost st) i j int_max) (min_index st))
        (seq i (j - i)).

(** One iteration of the loop on [length]. *)
Definition solve_length (n : nat) (st : tables) (len : nat) : tables :=
  foldl (solve_window len) st (seq 0 (n - len + 1)).

(** The tables after the three nested loops. *)
Definition fill_tables : tables :=
  let n := length mats in
  foldl (solve_length n)
        (mkTables (table_new n 0) (table_new n 0%nat))
        (seq 2 (n - 1)).

End Optimizer.

(** The label of position [i]: the supplied name, or ["M"] and the 1-based
    position. *)
Definition mat_label (mat_names : list string) (i : nat) : string :=
  match mat_names with
  | [] => "M" ++ to_string (int_add (Z.of_nat i) 1)
  | _ => default "" (mat_names !! i)
  end.

(** [order_to_string].  The recursion of the source follows the entries of
    [min_index] and is not structural: [fuel] bounds its depth, and [None]
    stands for a recursion that has not come back within that depth. *)
Fixpoint order_to_string (fuel : nat) (idx : list (list nat)) (i j : nat)
    (mat_names : list string) : option string :=
  match fuel with
  | O => None
  | S fuel' =>
      if decide (i = j) then Some (mat_label mat_names i)
      else
        match order_to_string fuel' idx i (table_get idx i j) mat_names with
        | None => None
        | Some l =>
            match order_to_string fuel' idx (table_get idx i j + 1) j
                    mat_names with
            | None => None
            | Some r => Some ("(" ++ l ++ " * " ++ r ++ ")")
            end
        end
  end.

(** [calc_optimal_mult_order].  A window of [m] matrices is rendered with a
    recursion of depth at most [m], so that [length mats] is fuel enough
    whenever the recursion of the source comes back at all. *)
Definition calc_optimal_mult_order (mats : list Matrix)
    (mat_names : list string) : outcome (string * Z) :=
  if negb (length mat_names =? 0)%nat
     && negb (length mat_names =? length mats)%nat
  then Throws "wrong input sizes"
  else if (length mats =? 0)%nat then Returns ("", 0)
  else if negb (for_each_adjacent_pair mats
                  (fun m1 m2 => get_ncol m1 =? get_nrow m2))
  then AssertFails
  else
    let n := length mats in
    let st := fill_tables mats in
    match order_to_string n (min_index st) 0 (n - 1) mat_names with
    | Some opt_order =>
        Returns (opt_order, table_get (min_cost st) 0 (n - 1))
    | None => Diverges
    end.

(** ** Parenthesizations of a chain *)

(** A binary grouping; a leaf is a position of the chain. *)
Inductive tree : Type :=
| Leaf (i : nat)
| Node (l r : tree).

(** [paren i j t]: [t] is a full parenthesization of the sub-chain
    [[i, j]], every position used once and in order. *)
Inductive paren : nat -> nat -> tree -> Prop :=
| paren_leaf i : paren i i (Leaf i)
| paren_node i k j l r :
    paren i k l -> paren (k + 1) j r -> paren i j (Node l r).

(** The expression of a grouping, in the format of [order_to_string]. *)
Fixpoint render (mat_names : list string) (t : tree) : string :=
  match t with
  | Leaf i => mat_label mat_names i
  | Node l r =>
      "(" ++ render mat_names l ++ " * " ++ render mat_names r ++ ")"
  end.

(** The grouping that [order_to_string] walks through, with the same
    recursion and the same fuel. *)
Fixpoint order_tree (fuel : nat) (idx : list (list nat)) (i j : nat)
  : option tree :=
  match fuel with
  | O => None
  | S fuel' =>
      if decide (i = j) then Some (Leaf i)
      else
        match order_tree fuel' idx i (table_get idx i j) with
        | None => None
        | Some l =>
            match order_tree fuel' idx (table_get idx i j + 1) j with
            | None => None
            | Some r => Some (Node l r)
            end
        end
  end.

Section Chain.

Variable mats : list Matrix.

(** Shape of the product a grouping denotes. *)
Fixpoint tree_shape (t : tree) : Z * Z :=
  match t with
  | Leaf i => (get_nrow (get_mat mats i), get_ncol (get_mat mats i))
  | Node l r => (fst (tree_shape l), snd (tree_shape r))
  end.

(** Total multiplication flops of a grouping, as a mathematical integer:
    multiplying an (r1, c1) result by a (c1, c2) result costs
    r1 * c1 * (2 * c2 - 1). *)
Fixpoint tree_cost (t : tree) : Z :=
  match t with
  | Leaf _ => 0
  | Node l r =>
      tree_cost l + tree_cost r +
      fst (tree_shape l) * snd (tree_shape l) * (2 * snd (tree_shape r) - 1)
  end.

(** Evaluation of a grouping with [Matrix::operator*]; [leaf] supplies the
    operand at each position. *)
Fixpoint eval (leaf : nat -> Matrix) (t : tree) : outcome Matrix :=
  match t with
  | Leaf i => Returns (leaf i)
  | Node l r =>
      match eval leaf l with
      | Returns a =>
          match eval leaf r with
          | Returns b => mult a b
          | o => o
          end
      | o => o
      end
  end.

(** A freshly constructed matrix with the shape of position [i]. *)
Definition fresh (i : nat) : Matrix :=
  Matrix_new (get_nrow (get_mat mats i)) (get_ncol (get_mat mats i)).

(** [c] is the least cost of a full parenthesization of [[i, j]]. *)
Definition is_min_cost (i j : nat) (c : Z) : Prop :=
  (exists t, paren i j t /\ tree_cost t = c) /\
  (forall t, paren i j t -> c <= tree_cost t).

(** Every full parenthesization of every contiguous sub-chain has a cost
    that an [int] holds and that is below the initial value [int_max] of a
    table entry. *)
Definition costs_in_range : Prop :=
  forall i j t, (j < length mats)%nat -> paren i j t ->
    int_min <= tree_cost t < int_max.

End Chain.

(** The chain has adjacent-compatible shapes. *)
Definition compatible (mats : list Matrix) : Prop :=
  forall i, (i + 1 < length mats)%nat ->
    get_ncol (get_mat mats i) = get_nrow (get_mat mats (i + 1)).

(** Every matrix of the chain has at least one row and one column. *)
Definition positive_dims (mats : list Matrix) : Prop :=
  forall i, (i < length mats)%nat ->
    1 <= get_nrow (get_mat mats i) /\ 1 <= get_ncol (get_mat mats i).

(** The names are absent, or one per matrix. *)
Definition names_ok (mats : list Matrix) (mat_names : list string) : Prop :=
  mat_names = [] \/ length mat_names = length mats.

Definition ABCD : list Matrix :=
  [Matrix_new 40 20; Matrix_new 20 30; Matrix_new 30 10; Matrix_new 10 30].

(** ** Vocabulary of the invariants *)

(** An [n] x [n] table. *)
Definition table_dims {A : Type} (n : nat) (t : list (list A)) : Prop :=
  length t = n /\ Forall (fun row => length row = n) t.

Definition tables_dims (n : nat) (st : tables) : Prop :=
  table_dims n (min_cost st) /\ table_dims n (min_index st).

(** [st'] differs from [st] at most in the entries [(i, j)]. *)
Definition same_except (i j : nat) (st st' : tables) : Prop :=
  forall a b, a <> i \/ b <> j ->
    table_get (min_cost st') a b = table_get (min_cost st) a b /\
    table_get (min_index st') a b = table_get (min_index st) a b.

(** The loop on [k], seen as a scan for the first minimum: the pair is the
    entry [(i, j)] of [min_cost] and of [min_index]. *)
Definition scan_step (c : nat -> Z) (acc : Z * nat) (k : nat) : Z * nat :=
  if c k <? fst acc then (c k, k) else acc.

Definition scan (c : nat -> Z) (ks : list nat) (acc : Z * nat) : Z * nat :=
  foldl (scan_step c) acc ks.

Section Invariants.

Variable mats : list Matrix.

(** The entry of a solved window: the scan of its candidates, started from
    [int_max] and from the initial 0 of [min_index]. *)
Definition entry_ok (st : tables) (a b : nat) : Prop :=
  (table_get (min_cost st) a b, table_get (min_index st) a b)
  = scan (fun k => split_cost mats (min_cost st) a k b) (seq a (b - a))
      (int_max, 0%nat).

(** The windows solved when the loop on [length] is at [len] and the loop
    on [i] is at [i0]. *)
Definition solved (len i0 a b : nat) : Prop :=
  (a < b)%nat /\ (b - a + 1 < len \/ (b - a + 1 = len /\ a < i0))%nat.

Definition loop_inv (len i0 : nat) (st : tables) : Prop :=
  tables_dims (length mats) st /\
  forall a b, (a < length mats)%nat -> (b < length mats)%nat ->
    (solved len i0 a b -> entry_ok st a b) /\
    (~ solved len i0 a b ->
     table_get (min_cost st) a b = 0 /\
     table_get (min_index st) a b = 0%nat).

(** The candidate of the split of [[a, b]] at [k], as the source computes
    it from the filled tables. *)
Definition candidate (a k b : nat) : Z :=
  split_cost mats (min_cost (fill_tables mats)) a k b.

End Invariants.

(** The right-nested grouping of the [len + 1] positions from [i] on. *)
Fixpoint right_comb (i len : nat) : tree :=
  match len with
  | O => Leaf i
  | S len' => Node (Leaf i) (right_comb (i + 1) len')
  end.

(** All full parenthesizations of [[i, j]]; [fuel] bounds the nesting. *)
Fixpoint all_parens (fuel : nat) (i j : nat) : list tree :=
  match fuel with
  | O => []
  | S fuel' =>
      if decide (i = j) then [Leaf i]
      else
        flat_map
          (fun k =>
             flat_map
               (fun l => map (fun r => Node l r) (all_parens fuel' (k + 1) j))
               (all_parens fuel' i k))
          (seq i (j - i))
  end.

(** A decision procedure for [costs_in_range]. *)
Definition range_check (mats : list Matrix) : bool :=
  forallb
    (fun i =>
       forallb
         (fun j =>
            forallb
              (fun t => (int_min <=? tree_cost mats t)
                        && (tree_cost mats t <? int_max))
              (all_parens (S (j - i)) i j))
         (seq i (length mats - i)))
    (seq 0 (length mats)).

(** ** Compound assignment, the list helpers and the fold expressions *)

(** [Matrix::operator+=]: [*this = this->operator+(other); return *this;].
    The outcome carries the new value of [*this], which the returned
    reference designates; when [operator+] throws, nothing is assigned. *)
Definition add_assign (this other : Matrix) : outcome Matrix :=
  add this other.

(** [Matrix::operator*=] *)
Definition mult_assign (this other : Matrix) : outcome Matrix :=
  mult this other.

(** The loop [for (it = mats.begin() + 1; it != mats.end(); it++) res op= *it;]
    of the two list helpers, [res] being the accumulator. *)
Fixpoint assign_loop (op_assign : Matrix -> Matrix -> outcome Matrix)
    (res : Matrix) (rest : list Matrix) : outcome Matrix :=
  match rest with
  | [] => Returns res
  | m :: rest' =>
      match op_assign res m with
      | Returns res' => assign_loop op_assign res' rest'
      | o => o
      end
  end.

Definition sum_using_initializer_list (mats : list Matrix) : outcome Matrix :=
  match mats with
  | [] => Throws "no input mat"
  | first :: rest => assign_loop add_assign first rest
  end.

Definition product_using_initializer_list (mats : list Matrix)
  : outcome Matrix :=
  match mats with
  | [] => Throws "no input mat"
  | first :: rest => assign_loop mult_assign first rest
  end.

(** The unary left fold [(... op args)], that is
    [((arg1 op arg2) op arg3) op ...]: an exception of an inner operation
    goes through the outer ones. *)
Fixpoint left_fold (op : Matrix -> Matrix -> outcome Matrix)
    (acc : outcome Matrix) (args : list Matrix) : outcome Matrix :=
  match args with
  | [] => acc
  | a :: args' =>
      left_fold op
        (match acc with
         | Returns x => op x a
         | o => o
         end)
        args'
  end.

(** [sum_using_fold_expression(arg1, args...)]; the pack of a unary fold
    over [+] cannot be empty. *)
Definition sum_using_fold_expression (arg1 : Matrix) (args : list Matrix)
  : outcome Matrix :=
  left_fold add (Returns arg1) args.

(** [product_using_fold_expression(arg1, args...)] *)
Definition product_using_fold_expression (arg1 : Matrix) (args : list Matrix)
  : outcome Matrix :=
  left_fold mult (Returns arg1) args.

(** [operator<<] on a [Matrix]: the text sent to the stream. *)
Definition print (mat : Matrix) : string :=
  "<dims: " ++ to_string (get_nrow mat) ++ " x " ++ to_string (get_ncol mat)
  ++ ", flops: " ++ to_string (get_flops mat) ++ ">".

(** ** Vocabulary for groupings *)

(** The left-nested grouping of the positions [0 .. len]: the expression
    [m0 * m1 * ... * mlen] as C++ parses it. *)
Fixpoint left_comb (len : nat) : tree :=
  match len with
  | O => Leaf 0
  | S len' => Node (left_comb len') (Leaf (S len'))
  end.

(** The positions of a grouping, from left to right. *)
Fixpoint leaves (t : tree) : list nat :=
  match t with
  | Leaf i => [i]
  | Node l r => leaves l ++ leaves r
  end.

(** The flops that the operands of a grouping bring along. *)
Fixpoint operand_flops (leaf : nat -> Matrix) (t : tree) : Z :=
  match t with
  | Leaf i => m_flops (leaf i)
  | Node l r => operand_flops leaf l + operand_flops leaf r
  end.

(** The sub-chain [[i, j]] has adjacent-compatible shapes. *)
Definition window_compatible (mats : list Matrix) (i j : nat) : Prop :=
  forall k, (i <= k < j)%nat ->
    get_ncol (get_mat mats k) = get_nrow (get_mat mats (k + 1)).

(** The operand at each position has the shape the chain gives it. *)
Definition shaped_like (mats : list Matrix) (leaf : nat -> Matrix) : Prop :=
  forall i, m_nrow (leaf i) = get_nrow (get_mat mats i) /\
            m_ncol (leaf i) = get_ncol (get_mat mats i).

(** The accumulated costs of a list of matrices, added up. *)
Definition total_flops (mats : list Matrix) : Z :=
  fold_right (fun m acc => m_flops m + acc) 0 mats.

(** [m] has the shape of [m0]. *)
Definition same_shape (m0 m : Matrix) : Prop :=
  m_nrow m = m_nrow m0 /\ m_ncol m = m_ncol m0.

(** The chain with every accumulated cost forgotten. *)
Definition refresh (mats : list Matrix) : list Matrix :=
  map (fun m => Matrix_new (get_nrow m) (get_ncol m)) mats.

(** ** The variant of [src/matrix.cpp]

    The same [Matrix] class and the same three loops; [order_to_string]
    has no default label and writes the token [" x "], and
    [calc_optimal_mult_order] has no guard on the number of names. *)

Module MatrixCpp.

(** What a call of [order_to_string] comes to.  Reading
    [*(mat_names.begin() + i)] past the end of [mat_names] is undefined. *)
Inductive rendering : Type :=
| Rendered (s : string)
| ReadsPastNames
| NoReturn.

(** What a call of [calc_optimal_mult_order] comes to. *)
Inductive result : Type :=
| Completed (o : outcome (string * Z))
| Undefined.

(** The order in which C++ evaluates the two recursive calls is
    unspecified; the left one comes first here, which only decides which of
    two failures is reported. *)
Fixpoint order_to_string (fuel : nat) (idx : list (list nat)) (i j : nat)
    (mat_names : list string) : rendering :=
  match fuel with
  | O => NoReturn
  | S fuel' =>
      if decide (i = j) then
        match mat_names !! i with
        | Some name => Rendered name
        | None => ReadsPastNames
        end
      else
        match order_to_string fuel' idx i (table_get idx i j) mat_names with
        | Rendered l =>
            match order_to_string fuel' idx (table_get idx i j + 1) j
                    mat_names with
            | Rendered r => Rendered ("(" ++ l ++ " x " ++ r ++ ")")
            | o => o
            end
        | o => o
        end
  end.

Definition calc_optimal_mult_order (mats : list Matrix)
    (mat_names : list string) : result :=
  if (length mats =? 0)%nat then Completed (Returns ("", 0))
  else if negb (for_each_adjacent_pair mats
                  (fun m1 m2 => get_ncol m1 =? get_nrow m2))
  then Completed AssertFails
  else
    let n := length mats in
    let st := fill_tables mats in
    match order_to_string n (min_index st) 0 (n - 1) mat_names with
    | Rendered opt_order =>
        Completed (Returns (opt_order, table_get (min_cost st) 0 (n - 1)))
    | ReadsPastNames => Undefined
    | NoReturn => Completed Diverges
    end.

(** [calc_mult_flops]: the flops of the left-to-right product, 0 for no
    matrix at all. *)
Definition calc_mult_flops (mats : list Matrix) : outcome Z :=
  match mats with
  | [] => Returns 0
  | first :: rest =>
      match assign_loop mult_assign first rest with
      | Returns res => Returns (get_flops res)
      | Throws w => Throws w
      | AssertFails => AssertFails
      | Diverges => Diverges
      end
  end.

(** The expression of a grouping in the format of this variant. *)
Fixpoint render (mat_names : list string) (t : tree) : string :=
  match t with
  | Leaf i => default "" (mat_names !! i)
  | Node l r =>
      "(" ++ render mat_names l ++ " x " ++ render mat_names r ++ ")"
  end.

End MatrixCpp.

(** ** The variant with separate counters

    The second program of [src/unnamed/part_002]: additions and
    multiplications are counted apart, and [get_flops] adds them up. *)

Module Counters.

Record Matrix : Type := mkMatrix {
  nrow : Z;
  ncol : Z;
  add_ops : Z;
  mult_ops : Z
}.

Definition Matrix_new (nrow ncol : Z) : Matrix := mkMatrix nrow ncol 0 0.

Definition get_nrow (m : Matrix) : Z := nrow m.
Definition get_ncol (m : Matrix) : Z := ncol m.
Definition get_add_ops (m : Matrix) : Z := add_ops m.
Definition get_mult_ops (m : Matrix) : Z := mult_ops m.
Definition get_flops (m : Matrix) : Z := int_add (add_ops m) (mult_ops m).

Definition dims_error (this other : Matrix) : string :=
  "dimensions do not match: this->ncol (" ++ to_string (ncol this)
  ++ ") != other.nrow (" ++ to_string (nrow other) ++ ")".

(** [Matrix::operator+] *)
Definition add (this other : Matrix) : outcome Matrix :=
  if negb (nrow this =? nrow other) || negb (ncol this =? ncol other)
  then Throws (dims_error this other)
  else Returns
         (mkMatrix (nrow this) (ncol this)
            (int_add (int_add (add_ops this) (add_ops other))
                     (int_mul (nrow this) (ncol this)))
            (int_add (mult_ops this) (mult_ops other))).

(** [Matrix::operator*] *)
Definition mult (this other : Matrix) : outcome Matrix :=
  if negb (ncol this =? nrow other)
  then Throws (dims_error this other)
  else Returns
         (mkMatrix (nrow this) (ncol other)
            (int_add (int_add (add_ops this) (add_ops other))
                     (int_mul (int_mul (nrow this) (ncol this))
                              (int_sub (ncol other) 1)))
            (int_add (int_add (mult_ops this) (mult_ops other))
                     (int_mul (int_mul (nrow this) (ncol this))
                              (ncol other)))).

End Counters.

(** A matrix with separate counters stands for a matrix with one counter:
    same shape, and the two counters add up to the one. *)
Definition stands_for (m2 : Counters.Matrix) (m : Matrix) : Prop :=
  Counters.nrow m2 = m_nrow m /\ Counters.ncol m2 = m_ncol m /\
  Counters.get_flops m2 = m_flops m.

(** ** Vocabulary for the printed forms *)

(** The characters of a printed [int]: the minus sign and the digits. *)
Definition is_numeric (c : ascii) : bool :=
  let n := nat_of_ascii c in
  (n =? 45)%nat || ((48 <=? n)%nat && (n <=? 57)%nat).

Fixpoint all_numeric (s : string) : bool :=
  match s with
  | EmptyString => true
  | String c s' => is_numeric c && all_numeric s'
  end.

Definition starts_numeric (s : string) : bool :=
  match s with
  | EmptyString => false
  | String c _ => is_numeric c
  end.

(** * Properties *)

(** ** Arithmetic of [int] *)

Module IntFacts.

Lemma int32_range z : in_int (int32 z).
Proof.
  unfold in_int, int32, int_min, int_max.
  pose proof (Z.mod_pos_bound (z + 2 ^ 31) (2 ^ 32) ltac:(lia)). lia.
Qed.

Lemma int32_id z : in_int z -> int32 z = z.
Proof.
  unfold in_int, int32, int_min, int_max. intros H.
  rewrite Z.mod_small; lia.
Qed.

Lemma int32_congr a b : a mod 2 ^ 32 = b mod 2 ^ 32 -> int32 a = int32 b.
Proof.
  intros H. unfold int32.
  rewrite (Z.add_mod a), (Z.add_mod b) by lia. now rewrite H.
Qed.

Lemma int32_mod z : int32 z mod 2 ^ 32 = z mod 2 ^ 32.
Proof.
  unfold int32.
  rewrite Zminus_mod, Z.mod_mod by lia.
  rewrite <- Zminus_mod. f_equal; lia.
Qed.

Lemma int32_add_l a b : int32 (int32 a + b) = int32 (a + b).
Proof.
  apply int32_congr.
  rewrite Z.add_mod, int32_mod, <- Z.add_mod by lia. reflexivity.
Qed.

Lemma int32_add_r a b : int32 (a + int32 b) = int32 (a + b).
Proof. rewrite Z.add_comm, int32_add_l. f_equal; lia. Qed.

Lemma int32_mul_l a b : int32 (int32 a * b) = int32 (a * b).
Proof.
  apply int32_congr.
  rewrite Z.mul_mod, int32_mod, <- Z.mul_mod by lia. reflexivity.
Qed.

Lemma int32_mul_r a b : int32 (a * int32 b) = int32 (a * b).
Proof. rewrite Z.mul_comm, int32_mul_l. f_equal; lia. Qed.

Lemma int32_sub_l a b : int32 (int32 a - b) = int32 (a - b).
Proof.
  replace (int32 a - b) with (int32 a + - b) by lia.
  rewrite int32_add_l. f_equal; lia.
Qed.

(** The flop formulas, computed in [int], are the reductions of the exact
    values. *)
Lemma mult_flops_exact r c c' :
  int_mul (int_mul r c) (int_sub (int_mul 2 c') 1)
  = int32 (r * c * (2 * c' - 1)).
Proof.
  unfold int_mul, int_sub.
  now rewrite int32_mul_l, int32_sub_l, int32_mul_r.
Qed.

Lemma sum_flops_exact x y r c c' :
  int_add (int_add x y) (int_mul (int_mul r c) (int_sub (int_mul 2 c') 1))
  = int32 (x + y + r * c * (2 * c' - 1)).
Proof.
  rewrite mult_flops_exact. unfold int_add.
  now rewrite int32_add_l, int32_add_r.
Qed.

End IntFacts.
Import IntFacts.

(** ** Reading and writing the tables *)

Section Tables.

Context {A : Type} `{!Inhabited A}.

Lemma table_new_dims n (x : A) : table_dims n (table_new n x).
Proof.
  split.
  - apply length_replicate.
  - apply Forall_replicate, length_replicate.
Qed.

Lemma table_get_new n (x : A) i j :
  (i < n)%nat -> (j < n)%nat -> table_get (table_new n x) i j = x.
Proof.
  intros Hi Hj. unfold table_get, table_new.
  now rewrite !lookup_total_replicate_2.
Qed.

Lemma table_set_dims n (t : list (list A)) i j v :
  table_dims n t -> table_dims n (table_set t i j v).
Proof.
  intros [Hlen Hrows]. split.
  - unfold table_set. now rewrite length_alter.
  - unfold table_set. apply Forall_alter; [exact Hrows|].
    intros row _ Hrow. now rewrite length_insert.
Qed.

Lemma table_row_length n (t : list (list A)) i :
  table_dims n t -> (i < n)%nat -> length (t !!! i) = n.
Proof.
  intros [Hlen Hrows] Hi.
  destruct (lookup_lt_is_Some_2 t i) as [row Hrow]; [lia|].
  rewrite (list_lookup_total_correct _ _ _ Hrow).
  exact (Forall_lookup_1 _ _ _ _ Hrows Hrow).
Qed.

Lemma table_get_set_eq n (t : list (list A)) i j v :
  table_dims n t -> (i < n)%nat -> (j < n)%nat ->
  table_get (table_set t i j v) i j = v.
Proof.
  intros Hd Hi Hj. unfold table_get, table_set.
  rewrite list_lookup_total_alter_eq by (destruct Hd; lia).
  apply list_lookup_total_insert_eq.
  now rewrite (table_row_length n).
Qed.

Lemma table_get_set_ne (t : list (list A)) i j v a b :
  a <> i \/ b <> j ->
  table_get (table_set t i j v) a b = table_get t a b.
Proof.
  intros Hne. unfold table_get, table_set.
  rewrite list_lookup_total_alter.
  case_decide as Hc; [|reflexivity].
  destruct Hc as [-> _].
  apply list_lookup_total_insert_ne. intros ->. destruct Hne; congruence.
Qed.

End Tables.

(** ** The loop on [k] as a scan for the first minimum *)

Lemma scan_ext c c' ks acc :
  (forall k, In k ks -> c k = c' k) -> scan c ks acc = scan c' ks acc.
Proof.
  revert acc. induction ks as [|k ks IH]; intros acc Hc; [reflexivity|].
  unfold scan in *. simpl. unfold scan_step at 2 4.
  rewrite (Hc k) by now left.
  apply IH. intros k' Hk'. apply Hc. now right.
Qed.

Lemma scan_snoc c ks k acc :
  scan c (ks ++ [k]) acc = scan_step c (scan c ks acc) k.
Proof. unfold scan. now rewrite foldl_app. Qed.

(** Starting from [(v, x)], the scan of [a, a + m) either keeps [(v, x)],
    no candidate being below [v], or ends on the first position of the
    least candidate. *)
Lemma scan_seq_spec c a m v x :
  (scan c (seq a m) (v, x) = (v, x) /\
   forall k, (a <= k < a + m)%nat -> v <= c k)
  \/
  (exists s, scan c (seq a m) (v, x) = (c s, s) /\
     (a <= s < a + m)%nat /\ c s < v /\
     (forall k, (a <= k < s)%nat -> c s < c k) /\
     (forall k, (a <= k < a + m)%nat -> c s <= c k)).
Proof.
  induction m as [|m IH].
  - left. split; [reflexivity|]. intros k Hk. lia.
  - rewrite seq_S, scan_snoc.
    destruct IH as [[-> Hall]|(s & -> & Hs & Hlt & Hfirst & Hmin)];
      unfold scan_step; simpl;
      match goal with |- context [?u <? ?w] =>
        destruct (Z.ltb_spec u w) as [Hc|Hc] end.
    + right. exists (a + m)%nat. repeat split; try lia.
      * intros k Hk. specialize (Hall k). lia.
      * intros k Hk. destruct (decide (k = a + m)%nat) as [->|]; [lia|].
        specialize (Hall k). lia.
    + left. split; [reflexivity|]. intros k Hk.
      destruct (decide (k = a + m)%nat) as [->|]; [lia|]. apply Hall. lia.
    + right. exists (a + m)%nat. repeat split; try lia.
      * intros k Hk. destruct (decide (k < s)%nat).
        -- specialize (Hfirst k). lia.
        -- specialize (Hmin k). lia.
      * intros k Hk. destruct (decide (k = a + m)%nat) as [->|]; [lia|].
        specialize (Hmin k). lia.
    + right. exists s. repeat split; try lia; try assumption.
      intros k Hk. destruct (decide (k = a + m)%nat) as [->|]; [lia|].
      apply Hmin. lia.
Qed.

(** A [for] loop over [a, a + m) with an invariant indexed by the counter. *)
Lemma foldl_seq_ind {S : Type} (P : nat -> S -> Prop) (f : S -> nat -> S) m :
  forall a s,
    P a s ->
    (forall i s', (a <= i < a + m)%nat -> P i s' -> P (i + 1)%nat (f s' i)) ->
    P (a + m)%nat (foldl f s (seq a m)).
Proof.
  induction m as [|m IH]; intros a s Ha Hstep; simpl.
  - now rewrite Nat.add_0_r.
  - replace (a + Datatypes.S m)%nat with ((a + 1) + m)%nat by lia.
    replace (Datatypes.S a) with (a + 1)%nat by lia.
    apply IH.
    + apply Hstep; [lia|assumption].
    + intros i s' Hi. apply Hstep. lia.
Qed.

(** ** Invariants of the three nested loops *)

Section Loops.

Variable mats : list Matrix.
Local Abbreviation n := (length mats).

Lemma split_cost_agree mc mc' a k b :
  table_get mc' a k = table_get mc a k ->
  table_get mc' (k + 1) b = table_get mc (k + 1) b ->
  split_cost mats mc' a k b = split_cost mats mc a k b.
Proof. intros H1 H2. unfold split_cost. now rewrite H1, H2. Qed.

Lemma split_cost_exact mc i k j :
  split_cost mats mc i k j
  = int32 (table_get mc i k + table_get mc (k + 1) j
           + get_nrow (get_mat mats i) * get_ncol (get_mat mats k)
             * (2 * get_ncol (get_mat mats j) - 1)).
Proof. unfold split_cost. apply sum_flops_exact. Qed.

Lemma try_split_spec i j st k :
  (i < n)%nat -> (j < n)%nat -> tables_dims n st ->
  let st' := try_split mats i j st k in
  tables_dims n st' /\ same_except i j st st' /\
  (table_get (min_cost st') i j, table_get (min_index st') i j)
  = scan_step (fun k => split_cost mats (min_cost st) i k j)
      (table_get (min_cost st) i j, table_get (min_index st) i j) k.
Proof.
  intros Hi Hj [Hmc Hidx]. unfold try_split, scan_step. simpl.
  destruct (_ <? _).
  - split; [split; simpl; now apply table_set_dims|]. split.
    + intros a b Hab. simpl. now rewrite !table_get_set_ne.
    + simpl. now rewrite !(table_get_set_eq n).
  - split; [now split|]. split; [now intros a b _|reflexivity].
Qed.

Lemma try_split_loop i j ks :
  (i < n)%nat -> (j < n)%nat ->
  (forall k, In k ks -> (i <= k < j)%nat) ->
  forall st, tables_dims n st ->
  let st' := foldl (try_split mats i j) st ks in
  tables_dims n st' /\ same_except i j st st' /\
  (table_get (min_cost st') i j, table_get (min_index st') i j)
  = scan (fun k => split_cost mats (min_cost st) i k j) ks
      (table_get (min_cost st) i j, table_get (min_index st) i j).
Proof.
  intros Hi Hj. induction ks as [|k ks IH]; intros Hks st Hd; simpl.
  - split; [assumption|]. split; [now intros a b _|reflexivity].
  - destruct (try_split_spec i j st k Hi Hj Hd) as (Hd1 & Hsame1 & Hent1).
    destruct (IH (fun k' H => Hks k' (or_intror H)) _ Hd1)
      as (Hd2 & Hsame2 & Hent2).
    split; [assumption|]. split.
    + intros a b Hab. destruct (Hsame2 a b Hab) as [-> ->].
      now apply Hsame1.
    + rewrite Hent2, Hent1. unfold scan at 2. simpl.
      apply scan_ext. intros k' Hk'.
      pose proof (Hks k' (or_intror Hk')).
      apply split_cost_agree; apply Hsame1; lia.
Qed.

(** The window [[i, j]] after its loop on [k]: the entry [(i, j)] holds the
    scan of the candidates, which are read from entries that the loop
    leaves alone, and nothing else has changed. *)
Lemma solve_window_spec len i st :
  (2 <= len)%nat -> (i + len - 1 < n)%nat -> tables_dims n st ->
  let j := (i + len - 1)%nat in
  let st' := solve_window mats len st i in
  tables_dims n st' /\ same_except i j st st' /\
  (table_get (min_cost st') i j, table_get (min_index st') i j)
  = scan (fun k => split_cost mats (min_cost st') i k j) (seq i (j - i))
      (int_max, table_get (min_index st) i j).
Proof.
  intros Hlen Hj [Hmc Hidx] j. cbv zeta. unfold solve_window. fold j.
  assert (Hi : (i < n)%nat) by lia.
  set (st0 := mkTables (table_set (min_cost st) i j int_max) (min_index st)).
  assert (Hd0 : tables_dims n st0)
    by (split; simpl; [now apply table_set_dims|assumption]).
  assert (Hks : forall k, In k (seq i (j - i)) -> (i <= k < j)%nat)
    by (intros k Hk; apply in_seq in Hk; lia).
  destruct (try_split_loop i j (seq i (j - i)) Hi Hj Hks st0 Hd0)
    as (Hd & Hsame & Hent).
  split; [assumption|]. split.
  - intros a b Hab. destruct (Hsame a b Hab) as [-> ->].
    subst st0; simpl. now rewrite table_get_set_ne.
  - rewrite Hent. subst st0; simpl.
    rewrite (table_get_set_eq n) by assumption.
    apply scan_ext. intros k Hk. apply Hks in Hk.
    symmetry. apply split_cost_agree; apply Hsame; lia.
Qed.

Lemma loop_inv_ext len i0 len' i0' st :
  (forall a b, (a < n)%nat -> (b < n)%nat ->
     solved len i0 a b <-> solved len' i0' a b) ->
  loop_inv mats len i0 st -> loop_inv mats len' i0' st.
Proof.
  intros Heq [Hd Hinv]. split; [assumption|].
  intros a b Ha Hb. destruct (Hinv a b Ha Hb) as [H1 H2].
  specialize (Heq a b Ha Hb). split; intros H.
  - apply H1, Heq, H.
  - apply H2. intros H'. apply H, Heq, H'.
Qed.

Lemma loop_inv_init :
  loop_inv mats 2 0 (mkTables (table_new n 0) (table_new n 0%nat)).
Proof.
  split; [split; apply table_new_dims|].
  intros a b Ha Hb. split.
  - intros [Hab [H|[_ H]]]; lia.
  - intros _. simpl. now rewrite !table_get_new.
Qed.

Lemma loop_inv_window len i st :
  (2 <= len)%nat -> (i + len - 1 < n)%nat ->
  loop_inv mats len i st -> loop_inv mats len (i + 1) (solve_window mats len st i).
Proof.
  intros Hlen Hj [Hd Hinv].
  destruct (solve_window_spec len i st Hlen Hj Hd) as (Hd' & Hsame & Hent).
  set (st' := solve_window mats len st i) in *.
  set (j := (i + len - 1)%nat) in *.
  split; [assumption|].
  intros a b Ha Hb. split.
  - intros Hs.
    destruct (decide (a = i /\ b = j)) as [[-> ->]|Hne].
    + unfold entry_ok. rewrite Hent.
      destruct (Hinv i j ltac:(lia) Hj) as [_ Hzero].
      destruct Hzero as [_ ->]; [|reflexivity].
      intros [_ [H|[_ H]]]; lia.
    + assert (Hold : solved len i a b).
      { destruct Hs as [Hab [H|[H1 H2]]]; split; try assumption; [now left|].
        right. split; [assumption|].
        destruct (decide (a = i)) as [->|]; [|lia].
        exfalso. apply Hne. split; [reflexivity|lia]. }
      destruct (Hinv a b Ha Hb) as [Hok _]. specialize (Hok Hold).
      unfold entry_ok in *.
      destruct (Hsame a b) as [-> ->]; [lia|]. rewrite Hok.
      apply scan_ext. intros k Hk. apply in_seq in Hk.
      destruct Hold as [Hab Hold].
      symmetry. apply split_cost_agree; apply Hsame; lia.
  - intros Hns.
    assert (Hne : a <> i \/ b <> j).
    { destruct (decide (a = i)) as [->|]; [|now left].
      destruct (decide (b = j)) as [->|]; [|now right].
      exfalso. apply Hns. split; [lia|]. right. lia. }
    destruct (Hsame a b Hne) as [-> ->].
    apply (Hinv a b Ha Hb). intros [Hab Hs]. apply Hns.
    split; [assumption|]. lia.
Qed.

Lemma loop_inv_length len st :
  (2 <= len <= n)%nat ->
  loop_inv mats len 0 st -> loop_inv mats (len + 1) 0 (solve_length mats n st len).
Proof.
  intros Hlen Hinv. unfold solve_length.
  apply (loop_inv_ext len (0 + (n - len + 1))).
  { intros a b Ha Hb. unfold solved. lia. }
  apply (foldl_seq_ind (loop_inv mats len)); [assumption|].
  intros i s' Hi Hs'. apply loop_inv_window; [lia|lia|assumption].
Qed.

(** The tables once filled: every window [a < b] holds the scan of its
    candidates, and every other entry is still 0. *)
Lemma fill_tables_spec :
  tables_dims n (fill_tables mats) /\
  forall a b, (a < n)%nat -> (b < n)%nat ->
    ((a < b)%nat -> entry_ok mats (fill_tables mats) a b) /\
    ((b <= a)%nat ->
     table_get (min_cost (fill_tables mats)) a b = 0 /\
     table_get (min_index (fill_tables mats)) a b = 0%nat).
Proof.
  assert (Hinv : loop_inv mats (2 + (n - 1)) 0 (fill_tables mats)).
  { unfold fill_tables.
    apply (foldl_seq_ind (fun len => loop_inv mats len 0)).
    - apply loop_inv_init.
    - intros len s' Hlen Hs'. apply loop_inv_length; [lia|assumption]. }
  destruct Hinv as [Hd Hinv]. split; [assumption|].
  intros a b Ha Hb. destruct (Hinv a b Ha Hb) as [H1 H2]. split.
  - intros Hab. apply H1. split; [assumption|]. left. lia.
  - intros Hab. apply H2. intros [H _]. lia.
Qed.

End Loops.

(** ** Parenthesizations *)

Lemma paren_le i j t : paren i j t -> (i <= j)%nat.
Proof. induction 1; lia. Qed.

Lemma paren_inv i j t :
  paren i j t ->
  (i = j /\ t = Leaf i) \/
  (exists k l r, (i <= k < j)%nat /\ t = Node l r /\
                 paren i k l /\ paren (k + 1) j r).
Proof.
  intros H. destruct H as [i|i k j l r Hl Hr].
  - now left.
  - right. exists k, l, r.
    pose proof (paren_le _ _ _ Hl). pose proof (paren_le _ _ _ Hr).
    repeat split; try assumption; lia.
Qed.

Lemma paren_shape mats i j t :
  paren i j t ->
  tree_shape mats t = (get_nrow (get_mat mats i), get_ncol (get_mat mats j)).
Proof.
  induction 1 as [i|i k j l r _ IHl _ IHr]; simpl; [reflexivity|].
  now rewrite IHl, IHr.
Qed.

Lemma paren_node_cost mats i k j l r :
  paren i k l -> paren (k + 1) j r ->
  tree_cost mats (Node l r)
  = tree_cost mats l + tree_cost mats r
    + get_nrow (get_mat mats i) * get_ncol (get_mat mats k)
      * (2 * get_ncol (get_mat mats j) - 1).
Proof.
  intros Hl Hr. simpl.
  now rewrite (paren_shape mats _ _ _ Hl), (paren_shape mats _ _ _ Hr).
Qed.

(** The assertion of the source on adjacent pairs is [compatible]. *)
Lemma for_each_adjacent_pair_compatible mats :
  for_each_adjacent_pair mats (fun m1 m2 => get_ncol m1 =? get_nrow m2) = true
  <-> compatible mats.
Proof.
  unfold compatible, get_mat.
  induction mats as [|x [|y rest] IH].
  - split; [intros _ i Hi; simpl in Hi; lia|reflexivity].
  - split; [intros _ i Hi; simpl in Hi; lia|reflexivity].
  - change (for_each_adjacent_pair (x :: y :: rest) _)
      with ((get_ncol x =? get_nrow y)
            && for_each_adjacent_pair (y :: rest)
                 (fun m1 m2 => get_ncol m1 =? get_nrow m2)).
    rewrite andb_true_iff, Z.eqb_eq, IH. split.
    + intros [Hxy Hrest] [|i] Hi; [exact Hxy|].
      apply (Hrest i). simpl in *. lia.
    + intros H. split; [apply (H 0%nat); simpl; lia|].
      intros i Hi. apply (H (S i)). simpl in *. lia.
Qed.

(** ** The filled tables, window by window *)

Section Windows.

Variable mats : list Matrix.
Local Abbreviation n := (length mats).
Local Abbreviation st := (fill_tables mats).

Lemma candidate_exact a k b :
  candidate mats a k b
  = int32 (table_get (min_cost st) a k + table_get (min_cost st) (k + 1) b
           + get_nrow (get_mat mats a) * get_ncol (get_mat mats k)
             * (2 * get_ncol (get_mat mats b) - 1)).
Proof. apply split_cost_exact. Qed.

Lemma diagonal_entry a b :
  (a < n)%nat -> (b < n)%nat -> (b <= a)%nat ->
  table_get (min_cost st) a b = 0 /\ table_get (min_index st) a b = 0%nat.
Proof.
  intros Ha Hb Hab. now apply (proj2 (fill_tables_spec mats) a b Ha Hb).
Qed.

(** Either no candidate mats of the window is below [int_max] and the entries
    keep their initial values, or the entries hold the least candidate mats and
    the first split that reaches it. *)
Lemma window_entry a b :
  (a < b)%nat -> (b < n)%nat ->
  (table_get (min_cost st) a b = int_max /\
   table_get (min_index st) a b = 0%nat /\
   forall k, (a <= k < b)%nat -> candidate mats a k b = int_max)
  \/
  (exists s, table_get (min_index st) a b = s /\
     table_get (min_cost st) a b = candidate mats a s b /\
     (a <= s < b)%nat /\ candidate mats a s b < int_max /\
     (forall k, (a <= k < s)%nat -> candidate mats a s b < candidate mats a k b) /\
     (forall k, (a <= k < b)%nat -> candidate mats a s b <= candidate mats a k b)).
Proof.
  intros Hab Hb.
  destruct (proj2 (fill_tables_spec mats) a b ltac:(lia) Hb) as [Hok _].
  specialize (Hok Hab). unfold entry_ok in Hok.
  destruct (scan_seq_spec (fun k => candidate mats a k b) a (b - a) int_max 0%nat)
    as [[Hs Hall]|(s & Hs & Hrange & Hlt & Hfirst & Hmin)];
    unfold candidate in Hs; rewrite Hs in Hok; injection Hok as Hc Hi.
  - left. repeat split; try assumption.
    intros k Hk. specialize (Hall k ltac:(lia)).
    pose proof (int32_range
      (table_get (min_cost st) a k + table_get (min_cost st) (k + 1) b
       + get_nrow (get_mat mats a) * get_ncol (get_mat mats k)
         * (2 * get_ncol (get_mat mats b) - 1))) as Hr.
    rewrite <- candidate_exact in Hr. unfold in_int in Hr. lia.
  - right. exists s. repeat split; try assumption; try lia.
    intros k Hk. apply Hmin. lia.
Qed.

End Windows.

(** ** Optimality of the filled cost table *)

Section Optimality.

Variable mats : list Matrix.
Local Abbreviation n := (length mats).
Local Abbreviation st := (fill_tables mats).

Hypothesis Hrange : costs_in_range mats.

(** Joining least-cost groupings of the two halves gives the candidate of
    the split, without any reduction. *)
Lemma candidate_in_range a k b :
  (a <= k < b)%nat -> (b < n)%nat ->
  is_min_cost mats a k (table_get (min_cost st) a k) ->
  is_min_cost mats (k + 1) b (table_get (min_cost st) (k + 1) b) ->
  candidate mats a k b
  = table_get (min_cost st) a k + table_get (min_cost st) (k + 1) b
    + get_nrow (get_mat mats a) * get_ncol (get_mat mats k)
      * (2 * get_ncol (get_mat mats b) - 1)
  /\ candidate mats a k b < int_max.
Proof.
  intros Hk Hb [(tl & Hl & Hcl) _] [(tr & Hr & Hcr) _].
  pose proof (Hrange a b (Node tl tr) Hb (paren_node _ _ _ _ _ Hl Hr)) as Hin.
  rewrite (paren_node_cost mats _ _ _ _ _ Hl Hr), Hcl, Hcr in Hin.
  rewrite candidate_exact.
  rewrite int32_id by (unfold in_int; lia). split; [reflexivity|lia].
Qed.

Lemma min_cost_optimal_aux d :
  forall a b, (b - a < d)%nat -> (a <= b)%nat -> (b < n)%nat ->
    is_min_cost mats a b (table_get (min_cost st) a b) /\
    ((a < b)%nat ->
     (a <= table_get (min_index st) a b < b)%nat /\
     table_get (min_cost st) a b
     = candidate mats a (table_get (min_index st) a b) b).
Proof.
  induction d as [|d IH]; intros a b Hd Hab Hb; [lia|].
  destruct (decide (a = b)) as [->|Hne].
  - destruct (diagonal_entry mats b b) as [Hz _]; try lia. rewrite Hz. split; [|lia]. split.
    + exists (Leaf b). split; [constructor|reflexivity].
    + intros t Ht. destruct (paren_inv _ _ _ Ht) as [[_ ->]|(k & _ & _ & Hk & _)];
        [simpl; lia|lia].
  - assert (Hlt : (a < b)%nat) by lia.
    assert (Hhalves : forall k, (a <= k < b)%nat ->
              is_min_cost mats a k (table_get (min_cost st) a k) /\
              is_min_cost mats (k + 1) b (table_get (min_cost st) (k + 1) b)).
    { intros k Hk. split; apply IH; lia. }
    assert (Hcand : forall k, (a <= k < b)%nat ->
              candidate mats a k b
              = table_get (min_cost st) a k + table_get (min_cost st) (k + 1) b
                + get_nrow (get_mat mats a) * get_ncol (get_mat mats k)
                  * (2 * get_ncol (get_mat mats b) - 1)
              /\ candidate mats a k b < int_max).
    { intros k Hk. destruct (Hhalves k Hk).
      now apply candidate_in_range. }
    destruct (window_entry mats a b Hlt Hb)
      as [(_ & _ & Hall)|(s & Hidx & Hmc & Hs & _ & _ & Hmin)].
    { specialize (Hall a ltac:(lia)). destruct (Hcand a ltac:(lia)). lia. } rewrite Hidx, Hmc.
    split; [|intros _; split; [assumption|reflexivity]].
    destruct (Hhalves s Hs) as [[(tl & Hl & Hcl) _] [(tr & Hr & Hcr) _]].
    split.
    + exists (Node tl tr). split; [now apply (paren_node _ s)|].
      rewrite (paren_node_cost mats _ _ _ _ _ Hl Hr), Hcl, Hcr.
      symmetry. apply Hcand, Hs.
    + intros t Ht.
      destruct (paren_inv _ _ _ Ht) as [[? _]|(k & l & r & Hk & -> & Hl' & Hr')];
        [lia|].
      rewrite (paren_node_cost mats _ _ _ _ _ Hl' Hr').
      destruct (Hhalves k Hk) as [[_ Hminl] [_ Hminr]].
      specialize (Hminl l Hl'). specialize (Hminr r Hr').
      specialize (Hmin k Hk). destruct (Hcand k Hk) as [Hck _].
      rewrite Hck in Hmin. lia.
Qed.

Lemma min_cost_optimal a b :
  (a <= b)%nat -> (b < n)%nat ->
  is_min_cost mats a b (table_get (min_cost st) a b).
Proof. intros Hab Hb. apply (min_cost_optimal_aux (S (b - a))); lia. Qed.

Lemma min_index_in_window a b :
  (a < b)%nat -> (b < n)%nat ->
  (a <= table_get (min_index st) a b < b)%nat.
Proof.
  intros Hab Hb.
  apply (min_cost_optimal_aux (S (b - a))); lia.
Qed.

End Optimality.

(** ** No operation of the optimizer overflows

    Signed overflow is undefined in C++, and [int32] stands for what the
    usual targets do then.  On a chain of matrices with at least one row
    and one column whose costs are in range, the question does not arise:
    every intermediate result of the computation of a candidate is a value
    that an [int] holds, so that each [int_add], [int_sub] and [int_mul] of
    [split_cost] is the exact operation. *)

Section NoOverflow.

Variable mats : list Matrix.
Local Abbreviation n := (length mats).
Local Abbreviation st := (fill_tables mats).

Hypothesis Hrange : costs_in_range mats.
Hypothesis Hpos : positive_dims mats.

Lemma tree_cost_nonneg i j t :
  paren i j t -> (j < n)%nat -> 0 <= tree_cost mats t.
Proof.
  induction 1 as [i|i k j l r Hl IHl Hr IHr]; intros Hj; simpl; [lia|].
  pose proof (paren_le _ _ _ Hl). pose proof (paren_le _ _ _ Hr).
  rewrite (paren_shape mats _ _ _ Hl), (paren_shape mats _ _ _ Hr). simpl.
  destruct (Hpos i ltac:(lia)) as [Hri _].
  destruct (Hpos k ltac:(lia)) as [_ Hck].
  destruct (Hpos j Hj) as [_ Hcj].
  specialize (IHl ltac:(lia)). specialize (IHr Hj). nia.
Qed.

Lemma split_cost_no_overflow a k b :
  (a <= k < b)%nat -> (b < n)%nat ->
  let x := table_get (min_cost st) a k in
  let y := table_get (min_cost st) (k + 1) b in
  let r := get_nrow (get_mat mats a) in
  let c := get_ncol (get_mat mats k) in
  let c' := get_ncol (get_mat mats b) in
  in_int (x + y) /\ in_int (r * c) /\ in_int (2 * c') /\
  in_int (2 * c' - 1) /\ in_int (r * c * (2 * c' - 1)) /\
  in_int (x + y + r * c * (2 * c' - 1)) /\
  split_cost mats (min_cost st) a k b = x + y + r * c * (2 * c' - 1).
Proof.
  intros Hk Hb x y r c c'.
  destruct (min_cost_optimal mats Hrange a k ltac:(lia) ltac:(lia))
    as [(tl & Hl & Hcl) _].
  destruct (min_cost_optimal mats Hrange (k + 1) b ltac:(lia) Hb)
    as [(tr & Hr & Hcr) _].
  pose proof (tree_cost_nonneg _ _ _ Hl ltac:(lia)) as Hx.
  pose proof (tree_cost_nonneg _ _ _ Hr Hb) as Hy.
  pose proof (Hrange a b (Node tl tr) Hb (paren_node _ _ _ _ _ Hl Hr)) as Hin.
  rewrite (paren_node_cost mats _ _ _ _ _ Hl Hr), Hcl, Hcr in Hin.
  rewrite Hcl in Hx. rewrite Hcr in Hy.
  destruct (Hpos a ltac:(lia)) as [Hra _].
  destruct (Hpos k ltac:(lia)) as [_ Hck].
  destruct (Hpos b Hb) as [_ Hcb].
  fold x y r c c' in Hin, Hx, Hy, Hra, Hck, Hcb.
  assert (Hrc : 1 <= r * c) by nia.
  assert (Hterm : r * c <= r * c * (2 * c' - 1)) by nia.
  assert (Hterm' : 2 * c' - 1 <= r * c * (2 * c' - 1)) by nia.
  unfold in_int, int_min, int_max in *.
  repeat split; try lia.
  rewrite split_cost_exact. apply int32_id. unfold in_int, int_min, int_max.
  fold x y r c c'. lia.
Qed.

End NoOverflow.

(** With at least one row and one column everywhere, costs only grow with
    the window: it is enough that the groupings of the whole chain cost
    less than [int_max]. *)

Lemma right_comb_paren len : forall i, paren i (i + len) (right_comb i len).
Proof.
  induction len as [|len IH]; intros i; simpl.
  - rewrite Nat.add_0_r. constructor.
  - apply (paren_node i i); [constructor|].
    replace (i + S len)%nat with (i + 1 + len)%nat by lia. apply IH.
Qed.

Lemma costs_in_range_whole (mats : list Matrix) :
  positive_dims mats ->
  (forall t, paren 0 (length mats - 1) t -> tree_cost mats t < int_max) ->
  costs_in_range mats.
Proof.
  intros Hpos Hwhole i j t Hj Ht.
  pose proof (paren_le _ _ _ Ht) as Hij.
  pose proof (tree_cost_nonneg mats Hpos _ _ _ Ht Hj) as H0.
  split; [unfold int_min; lia|].
  (* a grouping of [0, j] that contains [t] *)
  assert (Hleft : exists tl,
            paren 0 j tl /\ tree_cost mats t <= tree_cost mats tl).
  { destruct (decide (i = 0)%nat) as [->|Hi];
      [exists t; split; [assumption|lia]|].
    pose proof (right_comb_paren (i - 1) 0%nat) as Hp. simpl in Hp.
    assert (Hp' : paren (i - 1 + 1) j t)
      by (replace (i - 1 + 1)%nat with i by lia; assumption).
    exists (Node (right_comb 0 (i - 1)) t).
    split; [now apply (paren_node 0 (i - 1))|].
    pose proof (tree_cost_nonneg mats Hpos _ _ _ Hp ltac:(lia)).
    pose proof (tree_cost_nonneg mats Hpos _ _ _
                  (paren_node _ _ _ _ _ Hp Hp') Hj) as Hn.
    rewrite (paren_node_cost mats _ _ _ _ _ Hp Hp') in *.
    destruct (Hpos 0%nat ltac:(lia)) as [? _].
    destruct (Hpos (i - 1)%nat ltac:(lia)) as [_ ?].
    destruct (Hpos j Hj) as [_ ?]. nia. }
  destruct Hleft as (tl & Hl & Hle).
  destruct (decide (j = length mats - 1)%nat) as [->|Hjn].
  { specialize (Hwhole tl Hl). lia. }
  pose proof (right_comb_paren (length mats - 1 - (j + 1)) (j + 1)%nat) as Hp.
  replace (j + 1 + (length mats - 1 - (j + 1)))%nat with (length mats - 1)%nat
    in Hp by lia.
  pose proof (Hwhole _ (paren_node _ _ _ _ _ Hl Hp)) as Hw.
  rewrite (paren_node_cost mats _ _ _ _ _ Hl Hp) in Hw.
  pose proof (tree_cost_nonneg mats Hpos _ _ _ Hp ltac:(lia)).
  destruct (Hpos 0%nat ltac:(lia)) as [? _].
  destruct (Hpos j Hj) as [_ ?].
  destruct (Hpos (length mats - 1)%nat ltac:(lia)) as [_ ?]. nia.
Qed.

(** ** The rendered grouping *)

Lemma order_to_string_render fuel idx mat_names :
  forall i j,
    order_to_string fuel idx i j mat_names
    = option_map (render mat_names) (order_tree fuel idx i j).
Proof.
  induction fuel as [|fuel IH]; intros i j; simpl; [reflexivity|].
  destruct (decide (i = j)); [reflexivity|].
  rewrite !IH.
  destruct (order_tree fuel idx i _); simpl; [|reflexivity].
  destruct (order_tree fuel idx _ j); reflexivity.
Qed.

Lemma order_tree_mono idx fuel :
  forall fuel' i j t,
    (fuel <= fuel')%nat ->
    order_tree fuel idx i j = Some t -> order_tree fuel' idx i j = Some t.
Proof.
  induction fuel as [|fuel IH]; intros fuel' i j t Hle H; [discriminate|].
  destruct fuel' as [|fuel']; [lia|]. simpl in *.
  destruct (decide (i = j)); [assumption|].
  destruct (order_tree fuel idx i _) as [l|] eqn:Hl; [|discriminate].
  destruct (order_tree fuel idx _ j) as [r|] eqn:Hr; [|discriminate].
  rewrite (IH fuel' _ _ l), (IH fuel' _ _ r); try assumption; lia.
Qed.

Section Rendering.

Variable mats : list Matrix.
Local Abbreviation n := (length mats).
Local Abbreviation st := (fill_tables mats).

(** A call with [j < i] re-enters itself on [(i, 0)], the entries below the
    diagonal being 0: it never comes back. *)
Lemma order_tree_below fuel :
  forall i j, (j < i)%nat -> (i < n)%nat ->
    order_tree fuel (min_index st) i j = None.
Proof.
  induction fuel as [|fuel IH]; intros i j Hji Hi; simpl; [reflexivity|].
  destruct (decide (i = j)); [lia|].
  destruct (diagonal_entry mats i j) as [_ Hz]; try lia. rewrite Hz.
  now rewrite (IH i 0%nat) by lia.
Qed.

(** A call on [i <> j] that comes back found its split inside the window,
    with the entry of the cost table equal to the candidate of that split:
    the window was solved below [int_max], or it starts at 0 and all its
    candidates are [int_max]. *)
Lemma order_tree_split fuel i j t :
  (i < n)%nat -> (j < n)%nat -> i <> j ->
  order_tree (S fuel) (min_index st) i j = Some t ->
  (i <= table_get (min_index st) i j < j)%nat /\
  table_get (min_cost st) i j
  = candidate mats i (table_get (min_index st) i j) j.
Proof.
  intros Hi Hj Hne H.
  destruct (decide (j < i)%nat) as [Hji|Hij].
  { now rewrite order_tree_below in H. }
  simpl in H. destruct (decide (i = j)); [lia|].
  destruct (window_entry mats i j ltac:(lia) Hj)
    as [(Hmc & Hidx & Hall)|(s & Hidx & Hmc & Hs & _)].
  - destruct (decide (i = 0)%nat) as [->|Hi0].
    + rewrite Hidx, Hmc, (Hall 0%nat) by lia. split; [lia|reflexivity].
    + rewrite Hidx in H.
      rewrite (order_tree_below fuel i 0%nat) in H by lia. discriminate.
  - rewrite Hidx. split; [lia|assumption].
Qed.

(** The recursion on a window of [m] matrices has depth at most [m]:
    whatever comes back with some fuel comes back with fuel [m]. *)
Lemma order_tree_fuel fuel :
  forall i j t, (i < n)%nat -> (j < n)%nat ->
    order_tree fuel (min_index st) i j = Some t ->
    order_tree (S (j - i)) (min_index st) i j = Some t.
Proof.
  induction fuel as [|fuel IH]; intros i j t Hi Hj H; [discriminate|].
  destruct (decide (i = j)) as [->|Hne].
  { simpl in *. now destruct (decide (j = j)). }
  destruct (order_tree_split _ _ _ _ Hi Hj Hne H) as [Hk _].
  simpl in H |- *. destruct (decide (i = j)); [lia|].
  set (k := table_get (min_index st) i j) in *.
  destruct (order_tree fuel (min_index st) i k) as [l|] eqn:Hl;
    [|discriminate].
  destruct (order_tree fuel (min_index st) (k + 1) j) as [r|] eqn:Hr;
    [|discriminate].
  rewrite (order_tree_mono _ (S (k - i)) (j - i) i k l);
    [|lia|apply IH; [lia|lia|assumption]].
  rewrite (order_tree_mono _ (S (j - (k + 1))) (j - i) (k + 1) j r);
    [|lia|apply IH; [lia|lia|assumption]].
  assumption.
Qed.

Hypothesis Hcompat : compatible mats.

(** What comes back is a full parenthesization of the window, and its
    evaluation on fresh matrices carries the entry of the cost table. *)
Lemma order_tree_sound fuel :
  forall i j t, (i < n)%nat -> (j < n)%nat ->
    order_tree fuel (min_index st) i j = Some t ->
    paren i j t /\
    eval (fresh mats) t
    = Returns (mkMatrix (get_nrow (get_mat mats i)) (get_ncol (get_mat mats j))
                 (table_get (min_cost st) i j)).
Proof.
  induction fuel as [|fuel IH]; intros i j t Hi Hj H; [discriminate|].
  destruct (decide (i = j)) as [->|Hne].
  - simpl in H. destruct (decide (j = j)); [|lia].
    injection H as <-. split; [constructor|]. simpl. unfold fresh, Matrix_new.
    destruct (diagonal_entry mats j j) as [Hz _]; try lia. now rewrite Hz.
  - destruct (order_tree_split _ _ _ _ Hi Hj Hne H) as [Hk Hmc].
    simpl in H. destruct (decide (i = j)); [lia|].
    set (k := table_get (min_index st) i j) in *.
    destruct (order_tree fuel (min_index st) i k) as [l|] eqn:Hl;
      [|discriminate].
    destruct (order_tree fuel (min_index st) (k + 1) j) as [r|] eqn:Hr;
      [|discriminate].
    injection H as <-.
    destruct (IH i k l Hi ltac:(lia) Hl) as [Hpl Hel].
    destruct (IH (k + 1)%nat j r ltac:(lia) Hj Hr) as [Hpr Her].
    split; [now apply (paren_node _ k)|].
    simpl. rewrite Hel, Her. unfold mult. simpl.
    assert (Hc : (get_ncol (get_mat mats k) =? get_nrow (get_mat mats (k + 1)))
                 = true) by (apply Z.eqb_eq, Hcompat; lia).
    rewrite Hc. simpl. rewrite Hmc. reflexivity.
Qed.

(** When every window has its split inside, the recursion comes back. *)
Lemma order_tree_returns :
  (forall a b, (a < b)%nat -> (b < n)%nat ->
     (a <= table_get (min_index st) a b < b)%nat) ->
  forall fuel i j, (i <= j)%nat -> (j < n)%nat -> (j - i < fuel)%nat ->
    exists t, order_tree fuel (min_index st) i j = Some t.
Proof.
  intros Hwin. induction fuel as [|fuel IH]; intros i j Hij Hj Hf; [lia|].
  simpl. destruct (decide (i = j)); [eauto|].
  specialize (Hwin i j ltac:(lia) Hj).
  destruct (IH i (table_get (min_index st) i j)) as [l ->]; try lia.
  destruct (IH (table_get (min_index st) i j + 1)%nat j) as [r ->]; try lia.
  eauto.
Qed.

End Rendering.

(** ** Enumerating the parenthesizations of a window *)

Lemma all_parens_complete i j t :
  paren i j t -> forall fuel, (j - i < fuel)%nat -> In t (all_parens fuel i j).
Proof.
  induction 1 as [i|i k j l r Hl IHl Hr IHr]; intros fuel Hf;
    (destruct fuel as [|fuel]; [lia|]); simpl.
  - destruct (decide (i = i)); [now left|congruence].
  - pose proof (paren_le _ _ _ Hl). pose proof (paren_le _ _ _ Hr).
    destruct (decide (i = j)); [lia|].
    apply in_flat_map. exists k. split; [apply in_seq; lia|].
    apply in_flat_map. exists l. split; [apply IHl; lia|].
    apply in_map. apply IHr. lia.
Qed.

Lemma range_check_sound mats :
  range_check mats = true -> costs_in_range mats.
Proof.
  unfold range_check. intros H i j t Hj Ht.
  pose proof (paren_le _ _ _ Ht) as Hij.
  rewrite forallb_forall in H.
  specialize (H i ltac:(apply in_seq; lia)).
  rewrite forallb_forall in H.
  specialize (H j ltac:(apply in_seq; lia)).
  rewrite forallb_forall in H.
  specialize (H t (all_parens_complete _ _ _ Ht (S (j - i)) ltac:(lia))).
  apply andb_true_iff in H. destruct H as [H1 H2].
  apply Z.leb_le in H1. apply Z.ltb_lt in H2. lia.
Qed.

(** ** The optimizer on a valid call *)

Lemma calc_valid mats mat_names :
  mats <> [] -> compatible mats -> names_ok mats mat_names ->
  calc_optimal_mult_order mats mat_names
  = match order_to_string (length mats) (min_index (fill_tables mats)) 0
            (length mats - 1) mat_names with
    | Some opt_order =>
        Returns (opt_order,
                 table_get (min_cost (fill_tables mats)) 0 (length mats - 1))
    | None => Diverges
    end.
Proof.
  intros Hne Hc Hn. unfold calc_optimal_mult_order.
  assert (Hguard : negb (length mat_names =? 0)%nat
                   && negb (length mat_names =? length mats)%nat = false).
  { destruct Hn as [-> | ->]; simpl; [reflexivity|].
    rewrite Nat.eqb_refl. simpl. apply andb_false_r. }
  rewrite Hguard.
  destruct mats as [|m rest]; [congruence|].
  change (length (m :: rest) =? 0)%nat with false. cbv iota.
  apply for_each_adjacent_pair_compatible in Hc. rewrite Hc. reflexivity.
Qed.

(** A call that returns went through all the checks. *)
Lemma calc_returns_inv mats mat_names s c :
  calc_optimal_mult_order mats mat_names = Returns (s, c) ->
  mats = [] \/ (compatible mats /\ names_ok mats mat_names).
Proof.
  unfold calc_optimal_mult_order. intros H.
  destruct (negb (length mat_names =? 0)%nat
            && negb (length mat_names =? length mats)%nat) eqn:Hg;
    [discriminate|].
  destruct mats as [|m rest]; [now left|]. right.
  change (length (m :: rest) =? 0)%nat with false in H. cbv iota in H.
  destruct (for_each_adjacent_pair _ _) eqn:Hc; [|discriminate].
  split; [now apply for_each_adjacent_pair_compatible|].
  apply andb_false_iff in Hg. unfold names_ok.
  destruct Hg as [Hg|Hg]; apply negb_false_iff, Nat.eqb_eq in Hg.
  - left. now destruct mat_names.
  - now right.
Qed.

(** * The cost model *)

Lemma add_flops_exact x y r c :
  int_add (int_add x y) (int_mul r c) = int32 (x + y + r * c).
Proof. unfold int_add, int_mul. now rewrite int32_add_l, int32_add_r. Qed.

(** [operator*] and [operator+] in closed form. *)
Lemma mult_unfold (a b : Matrix) :
  mult a b
  = (if m_ncol a =? m_nrow b
     then Returns
            (mkMatrix (m_nrow a) (m_ncol b)
               (int32 (m_flops a + m_flops b
                       + m_nrow a * m_ncol a * (2 * m_ncol b - 1))))
     else Throws ("mult: dimensions do not match: " ++ diff_dims_error a b)).
Proof.
  unfold mult, calc_mat_mult_flops, get_nrow, get_ncol.
  rewrite sum_flops_exact. now destruct (m_ncol a =? m_nrow b).
Qed.

Lemma add_unfold (a b : Matrix) :
  add a b
  = (if (m_nrow a =? m_nrow b) && (m_ncol a =? m_ncol b)
     then Returns
            (mkMatrix (m_nrow a) (m_ncol a)
               (int32 (m_flops a + m_flops b + m_nrow a * m_ncol a)))
     else Throws ("add: dimensions do not match: " ++ diff_dims_error a b)).
Proof.
  unfold add, calc_mat_add_flops, get_nrow, get_ncol.
  rewrite add_flops_exact.
  destruct (Z.eqb_spec (m_nrow a) (m_nrow b)) as [Hr|Hr];
    destruct (Z.eqb_spec (m_ncol a) (m_ncol b)) as [Hc|Hc]; simpl;
    try reflexivity.
  now rewrite Hc.
Qed.



(** C7, as the code has it.  For two matrices with non-negative accumulated
    costs and non-negative rows and cols on which Add or Multiply succeeds
    with a cost that an [int] holds, and, under Multiply, unless the right
    operand has no column while the left operand has elements, the cost of
    the result is at least the cost of each operand. *)
Theorem cost_monotone (a b r : Matrix) :
  0 <= m_flops a -> 0 <= m_flops b ->
  0 <= m_nrow a -> 0 <= m_ncol a -> 0 <= m_nrow b -> 0 <= m_ncol b ->
  (add a b = Returns r /\
   m_flops a + m_flops b + m_nrow a * m_ncol a <= int_max)
  \/
  (mult a b = Returns r /\
   (1 <= m_ncol b \/ m_nrow a = 0 \/ m_ncol a = 0) /\
   m_flops a + m_flops b + m_nrow a * m_ncol a * (2 * m_ncol b - 1)
   <= int_max) ->
  m_flops a <= m_flops r /\ m_flops b <= m_flops r.
Proof.
  intros Hfa Hfb Hra Hca Hrb Hcb [[H Hmax]|(H & Hc1 & Hmax)].
  - rewrite add_unfold in H.
    destruct (_ && _); [|discriminate]. injection H as <-. simpl.
    assert (0 <= m_nrow a * m_ncol a) by nia.
    rewrite int32_id by (unfold in_int, int_min; lia). lia.
  - rewrite mult_unfold in H.
    destruct (_ =? _); [|discriminate]. injection H as <-. simpl.
    assert (0 <= m_nrow a * m_ncol a * (2 * m_ncol b - 1))
      by (destruct Hc1 as [?|[->| ->]]; nia).
    rewrite int32_id by (unfold in_int, int_min; lia). lia.
Qed.

Lemma cost_monotone_witness :
  exists r, mult (Matrix_new 2 5) (Matrix_new 5 10) = Returns r /\
            m_flops (Matrix_new 2 5) <= m_flops r /\
            m_flops (Matrix_new 5 10) <= m_flops r.
Proof.
  exists (mkMatrix 2 10 190). split; [reflexivity|].
  apply (cost_monotone (Matrix_new 2 5) (Matrix_new 5 10)); simpl; try lia.
  right. split; [reflexivity|]. unfold int_max. simpl. lia.
Defined.

(** C7 fails as stated.  A right operand without columns makes the flops of
    a multiplication negative, [2 * 3 * (2 * 0 - 1) = -6]; the product,
    of shape (2, 0) and cost -6, then takes an addition below the cost of
    its other operand; and a cost beyond [INT_MAX] comes out negative. *)
Lemma cost_monotone_counterexample :
  (let a := Matrix_new 2 3 in
   let b := Matrix_new 3 0 in
   exists r,
     mult a b = Returns r /\
     0 <= m_nrow a /\ 0 <= m_ncol a /\ 0 <= m_nrow b /\ 0 <= m_ncol b /\
     ~ (m_flops a <= m_flops r /\ m_flops b <= m_flops r)) /\
  (let a := Matrix_new 2 0 in
   exists b r,
     mult (Matrix_new 2 3) (Matrix_new 3 0) = Returns b /\
     add a b = Returns r /\
     0 <= m_nrow a /\ 0 <= m_ncol a /\ 0 <= m_nrow b /\ 0 <= m_ncol b /\
     ~ (m_flops a <= m_flops r /\ m_flops b <= m_flops r)) /\
  (let a := Matrix_new 65536 32768 in
   let b := Matrix_new 32768 1 in
   exists r,
     mult a b = Returns r /\
     0 <= m_nrow a /\ 0 <= m_ncol a /\ 0 <= m_nrow b /\ 0 <= m_ncol b /\
     ~ (m_flops a <= m_flops r /\ m_flops b <= m_flops r)).
Proof.
  split; [|split].
  - exists (mkMatrix 2 0 (-6)). simpl.
    split; [reflexivity|]. repeat split; try lia.
  - exists (mkMatrix 2 0 (-6)), (mkMatrix 2 0 (-6)). simpl.
    split; [reflexivity|]. split; [reflexivity|]. repeat split; try lia.
  - exists (mkMatrix 65536 1 (-2147483648)). simpl.
    split; [reflexivity|]. repeat split; try lia.
Qed.

(** ** The checks of the source

    The [static_assert]s and [assert]s of [compile_time_checks] and
    [run_time_checks], replayed on the embedding. *)

Example check_new :
  get_nrow (Matrix_new 2 10) = 2 /\ get_ncol (Matrix_new 2 10) = 10 /\
  get_flops (Matrix_new 2 10) = 0.
Proof. repeat split. Qed.

Example check_add_twice :
  match add (Matrix_new 2 10) (Matrix_new 2 10) with
  | Returns ab => add (Matrix_new 2 10) ab
  | o => o
  end = Returns (mkMatrix 2 10 40).
Proof. reflexivity. Qed.

Example check_mult_twice :
  match mult (Matrix_new 2 5) (Matrix_new 5 10) with
  | Returns ab => mult (Matrix_new 10 2) ab
  | o => o
  end = Returns (mkMatrix 10 10 570).
Proof. reflexivity. Qed.

Example check_default_labels :
  calc_optimal_mult_order ABCD []
  = Returns ("((M1 * (M2 * M3)) * M4)", 50200).
Proof. reflexivity. Qed.

(** The five groupings of four matrices that [main] prints, with their
    costs: the third one is the cheapest. *)
Example check_all_groupings :
  map (fun t => (render ["A"; "B"; "C"; "D"] t, tree_cost ABCD t))
      (all_parens 4 0 3)
  = [("(A * (B * (C * D)))", 100300); ("(A * ((B * C) * D))", 70400);
     ("((A * B) * (C * D))", 135700); ("((A * (B * C)) * D)", 50200);
     ("(((A * B) * C) * D)", 93600)].
Proof. reflexivity. Qed.

(** * Shapes along a chain *)

(** Any grouping of a window of a compatible chain multiplies through, on
    operands that have the shapes of the chain. *)
Lemma eval_shape mats (leaf : nat -> Matrix) :
  compatible mats ->
  (forall i, m_nrow (leaf i) = get_nrow (get_mat mats i) /\
             m_ncol (leaf i) = get_ncol (get_mat mats i)) ->
  forall i j t, paren i j t -> (j < length mats)%nat ->
    exists m, eval leaf t = Returns m /\
              m_nrow m = get_nrow (get_mat mats i) /\
              m_ncol m = get_ncol (get_mat mats j).
Proof.
  intros Hc Hleaf i j t Ht.
  induction Ht as [i|i k j l r Hl IHl Hr IHr]; intros Hj; simpl.
  - exists (leaf i). destruct (Hleaf i). now repeat split.
  - pose proof (paren_le _ _ _ Hr).
    destruct (IHl ltac:(lia)) as (a & -> & Har & Hac).
    destruct (IHr Hj) as (b & -> & Hbr & Hbc).
    rewrite mult_unfold, Hac, Hbr, (Hc k) by lia. rewrite Z.eqb_refl.
    eexists. split; [reflexivity|]. simpl. now split.
Qed.

(** C10.  Every full parenthesization of an adjacent-compatible chain of
    [n >= 1] matrices evaluates under Multiply without a dimension failure
    and yields the shape (rows of the first, cols of the last); so any two
    groupings of the chain give results of the same shape. *)
Theorem chain_product_shape (mats : list Matrix) :
  mats <> [] -> compatible mats ->
  (forall t, paren 0 (length mats - 1) t ->
     exists m, eval (get_mat mats) t = Returns m /\
               get_nrow m = get_nrow (get_mat mats 0) /\
               get_ncol m = get_ncol (get_mat mats (length mats - 1))) /\
  (forall t1 t2,
     paren 0 (length mats - 1) t1 -> paren 0 (length mats - 1) t2 ->
     exists m1 m2,
       eval (get_mat mats) t1 = Returns m1 /\
       eval (get_mat mats) t2 = Returns m2 /\
       get_nrow m1 = get_nrow m2 /\ get_ncol m1 = get_ncol m2).
Proof.
  intros Hne Hc.
  assert (Hn : (length mats - 1 < length mats)%nat)
    by (destruct mats; [congruence|simpl; lia]).
  assert (Hall : forall t, paren 0 (length mats - 1) t ->
     exists m, eval (get_mat mats) t = Returns m /\
               get_nrow m = get_nrow (get_mat mats 0) /\
               get_ncol m = get_ncol (get_mat mats (length mats - 1))).
  { intros t Ht. apply (eval_shape mats (get_mat mats) Hc); auto. }
  split; [exact Hall|].
  intros t1 t2 H1 H2.
  destruct (Hall t1 H1) as (m1 & E1 & R1 & C1).
  destruct (Hall t2 H2) as (m2 & E2 & R2 & C2).
  exists m1, m2. repeat split; congruence.
Qed.

(** The chain of the demonstration in [main]: the two groupings of
    [A(2,5) B(5,3) C(3,10)] have the same shape and different costs. *)
Lemma chain_product_shape_witness :
  let mats := [Matrix_new 2 5; Matrix_new 5 3; Matrix_new 3 10] in
  (exists m1 m2,
     eval (get_mat mats) (Node (Node (Leaf 0) (Leaf 1)) (Leaf 2)) = Returns m1 /\
     eval (get_mat mats) (Node (Leaf 0) (Node (Leaf 1) (Leaf 2))) = Returns m2 /\
     get_nrow m1 = get_nrow m2 /\ get_ncol m1 = get_ncol m2) /\
  eval (get_mat mats) (Node (Node (Leaf 0) (Leaf 1)) (Leaf 2))
  = Returns (mkMatrix 2 10 164) /\
  eval (get_mat mats) (Node (Leaf 0) (Node (Leaf 1) (Leaf 2)))
  = Returns (mkMatrix 2 10 475).
Proof.
  intros mats. split; [|split; reflexivity].
  assert (Hne : mats <> []) by discriminate.
  assert (Hc : compatible mats).
  { apply for_each_adjacent_pair_compatible. reflexivity. }
  apply (proj2 (chain_product_shape mats Hne Hc)).
  - apply (paren_node 0 1 2); [apply (paren_node 0 0 1)|]; constructor.
  - apply (paren_node 0 0 2); [|apply (paren_node 1 1 2)]; constructor.
Defined.

(** * The optimizer *)

Lemma last_index_lt (mats : list Matrix) :
  mats <> [] -> (length mats - 1 < length mats)%nat.
Proof. destruct mats; [congruence|simpl; lia]. Qed.

(** A call on a non-empty chain that returns: the expression is the
    rendering of the grouping read off [min_index], the cost is the entry
    [(0, n - 1)] of [min_cost]. *)
Lemma calc_returns mats mat_names s c :
  mats <> [] ->
  calc_optimal_mult_order mats mat_names = Returns (s, c) ->
  compatible mats /\
  exists t,
    order_tree (length mats) (min_index (fill_tables mats)) 0
      (length mats - 1) = Some t /\
    s = render mat_names t /\
    c = table_get (min_cost (fill_tables mats)) 0 (length mats - 1).
Proof.
  intros Hne H.
  destruct (calc_returns_inv _ _ _ _ H) as [?|[Hc Hn]]; [contradiction|].
  split; [assumption|].
  rewrite (calc_valid _ _ Hne Hc Hn), order_to_string_render in H.
  destruct (order_tree _ _ _ _) as [t|]; simpl in H; [|discriminate].
  injection H as <- <-. now exists t.
Qed.

(** A valid call on a chain whose costs are in range returns. *)
Lemma calc_in_range mats mat_names :
  mats <> [] -> compatible mats -> names_ok mats mat_names ->
  costs_in_range mats ->
  exists t,
    paren 0 (length mats - 1) t /\
    calc_optimal_mult_order mats mat_names
    = Returns (render mat_names t,
               table_get (min_cost (fill_tables mats)) 0 (length mats - 1)).
Proof.
  intros Hne Hc Hn Hr.
  pose proof (last_index_lt mats Hne) as Hlast.
  destruct (order_tree_returns mats (min_index_in_window mats Hr)
              (length mats) 0 (length mats - 1)) as [t Ht]; try lia.
  exists t. split.
  - apply (order_tree_sound mats Hc (length mats) 0%nat (length mats - 1) t
             ltac:(lia) Hlast Ht).
  - now rewrite (calc_valid _ _ Hne Hc Hn), order_to_string_render, Ht.
Qed.



(** C9.  On a single matrix [calc_optimal_mult_order] returns cost 0 and,
    as the expression, the supplied name, or ["M1"] when no names are
    supplied. *)
Theorem single_matrix (m : Matrix) (name : string) :
  calc_optimal_mult_order [m] [name] = Returns (name, 0) /\
  calc_optimal_mult_order [m] [] = Returns ("M1", 0).
Proof. split; reflexivity. Qed.

(** C3.  On [A(40,20), B(20,30), C(30,10), D(10,30)] with names A, B, C, D
    the result is [("((A * (B * C)) * D)", 50200)]; and whatever expression
    a call on a non-empty chain returns is the rendering of a full
    parenthesization of the chain, each product written
    ["(" left " * " right ")"]; a valid call on a chain whose costs are in
    range does return. *)
Theorem order_expression_format :
  calc_optimal_mult_order ABCD ["A"; "B"; "C"; "D"]
  = Returns ("((A * (B * C)) * D)", 50200) /\
  (forall mats mat_names s c,
     mats <> [] ->
     calc_optimal_mult_order mats mat_names = Returns (s, c) ->
     exists t, paren 0 (length mats - 1) t /\ s = render mat_names t) /\
  (forall mats mat_names,
     mats <> [] -> compatible mats -> names_ok mats mat_names ->
     costs_in_range mats ->
     exists s c, calc_optimal_mult_order mats mat_names = Returns (s, c)).
Proof.
  split; [reflexivity|]. split.
  - intros mats mat_names s c Hne H.
    destruct (calc_returns _ _ _ _ Hne H) as (Hc & t & Ht & -> & _).
    exists t. split; [|reflexivity].
    pose proof (last_index_lt mats Hne) as Hlast.
    apply (order_tree_sound mats Hc (length mats) 0%nat (length mats - 1) t
             ltac:(lia) Hlast Ht).
  - intros mats mat_names Hne Hc Hn Hr.
    destruct (calc_in_range _ _ Hne Hc Hn Hr) as (t & _ & ->). eauto.
Qed.


Lemma ABCD_in_range : costs_in_range ABCD.
Proof. apply range_check_sound. vm_compute. reflexivity. Qed.



(** The fuel of [calc_optimal_mult_order] loses nothing: when it reports
    [Diverges], [order_to_string] does not come back with any fuel. *)
Lemma diverges_for_all_fuel mats mat_names :
  calc_optimal_mult_order mats mat_names = Diverges ->
  forall fuel,
    order_to_string fuel (min_index (fill_tables mats)) 0 (length mats - 1)
      mat_names = None.
Proof.
  unfold calc_optimal_mult_order. intros H fuel.
  destruct (_ && _); [discriminate|].
  destruct mats as [|m rest] eqn:Hm; [discriminate|]. rewrite <- Hm in *.
  assert (Hne : mats <> []) by (rewrite Hm; discriminate).
  replace (length mats =? 0)%nat with false in H
    by (rewrite Hm; reflexivity).
  destruct (negb _); [discriminate|].
  rewrite order_to_string_render in H |- *.
  destruct (order_tree fuel _ _ _) as [t|] eqn:Ht; [|reflexivity].
  pose proof (last_index_lt mats Hne) as Hlast.
  apply order_tree_fuel in Ht; [|lia|assumption].
  replace (S (length mats - 1 - 0)) with (length mats) in Ht by lia.
  rewrite Ht in H. discriminate.
Qed.



(** C6, as the code has it.  For a window [[a, b]] with [a < b] at least
    one of whose candidates, computed in [int] as
    [minCost[a][k] + minCost[k+1][b] + rows(a) * cols(k) * (2 * cols(b) - 1)],
    is below [INT_MAX], the recorded split is the smallest [k] in [[a, b)]
    that achieves the minimum of the candidates, and [minCost[a][b]] is that
    minimum. *)
Theorem split_index_first_minimum (mats : list Matrix) (a b : nat) :
  (a < b)%nat -> (b < length mats)%nat ->
  (exists k, (a <= k < b)%nat /\ candidate mats a k b < int_max) ->
  let s := table_get (min_index (fill_tables mats)) a b in
  (a <= s < b)%nat /\
  table_get (min_cost (fill_tables mats)) a b = candidate mats a s b /\
  (forall k, (a <= k < b)%nat -> candidate mats a s b <= candidate mats a k b) /\
  (forall k, (a <= k < s)%nat -> candidate mats a s b < candidate mats a k b) /\
  (forall k,
     candidate mats a k b
     = int32 (table_get (min_cost (fill_tables mats)) a k
              + table_get (min_cost (fill_tables mats)) (k + 1) b
              + get_nrow (get_mat mats a) * get_ncol (get_mat mats k)
                * (2 * get_ncol (get_mat mats b) - 1))).
Proof.
  intros Hab Hb (k & Hk & Hlt) s. subst s.
  destruct (window_entry mats a b Hab Hb)
    as [(_ & _ & Hall)|(s & -> & Hmc & Hs & _ & Hfirst & Hmin)].
  - specialize (Hall k Hk). lia.
  - repeat split; try assumption; try lia.
    intros k'. apply candidate_exact.
Qed.

Lemma split_index_first_minimum_witness :
  let s := table_get (min_index (fill_tables ABCD)) 0 3 in
  s = 2%nat /\
  table_get (min_cost (fill_tables ABCD)) 0 3 = candidate ABCD 0 s 3 /\
  (forall k, (0 <= k < 3)%nat -> candidate ABCD 0 s 3 <= candidate ABCD 0 k 3).
Proof.
  split; [reflexivity|].
  assert (H : exists k, (0 <= k < 3)%nat /\ candidate ABCD 0 k 3 < int_max).
  { exists 0%nat. split; [lia|]. vm_compute. reflexivity. }
  destruct (split_index_first_minimum ABCD 0 3 ltac:(lia)
              ltac:(simpl; lia) H) as (_ & Hmc & Hmin & _).
  split; assumption.
Defined.

(** C6 fails as stated, without any overflow: in the chain
    [(0, 2147483647), (2147483647, 1), (1, 1)] the only candidate of the
    window [[1, 2]] is [2147483647 * 1 * (2 * 1 - 1) = INT_MAX], which is
    not below the initial [INT_MAX]; the split stays at its initial 0, which
    is not in the window. *)
Lemma split_index_counterexample :
  let mats :=
    [Matrix_new 0 2147483647; Matrix_new 2147483647 1; Matrix_new 1 1] in
  compatible mats /\
  candidate mats 1 1 2 = 2147483647 /\
  table_get (min_cost (fill_tables mats)) 1 1
  + table_get (min_cost (fill_tables mats)) 2 2
  + get_nrow (get_mat mats 1) * get_ncol (get_mat mats 1)
    * (2 * get_ncol (get_mat mats 2) - 1) = 2147483647 /\
  table_get (min_index (fill_tables mats)) 1 2 = 0%nat /\
  ~ (1 <= table_get (min_index (fill_tables mats)) 1 2 < 2)%nat.
Proof.
  intros mats.
  split; [apply for_each_adjacent_pair_compatible; reflexivity|].
  split; [reflexivity|]. split; [reflexivity|].
  assert (H : table_get (min_index (fill_tables mats)) 1 2 = 0%nat)
    by reflexivity.
  split; [exact H|]. rewrite H. lia.
Qed.

(** * Further properties of the cost model *)

(** X1.  [operator==] holds exactly between matrices whose rows, cols and
    accumulated flops are all equal, that is between equal values; it is
    therefore reflexive, symmetric and transitive, and two results of the
    same shape with different costs are not equal. *)
Theorem operator_eq_spec (a b c : Matrix) :
  (Matrix_eqb a b = true <-> a = b) /\
  Matrix_eqb a a = true /\
  Matrix_eqb a b = Matrix_eqb b a /\
  (Matrix_eqb a b = true -> Matrix_eqb b c = true -> Matrix_eqb a c = true) /\
  (m_flops a <> m_flops b -> Matrix_eqb a b = false).
Proof.
  assert (Hspec : forall x y, Matrix_eqb x y = true <-> x = y).
  { intros [xr xc xf] [yr yc yf]. unfold Matrix_eqb. simpl.
    rewrite !andb_true_iff, !Z.eqb_eq. split.
    - intros [[-> ->] ->]. reflexivity.
    - intros H. injection H as -> -> ->. auto. }
  split; [apply Hspec|]. split; [now apply Hspec|]. split; [|split].
  - unfold Matrix_eqb.
    now rewrite (Z.eqb_sym (m_nrow a)), (Z.eqb_sym (m_ncol a)),
      (Z.eqb_sym (m_flops a)).
  - intros Hab Hbc. apply Hspec in Hab, Hbc. apply Hspec. congruence.
  - intros Hne. destruct (Matrix_eqb a b) eqn:E; [|reflexivity].
    apply Hspec in E. congruence.
Qed.

(** X2.  Addition does not depend on the order of its operands: [a + b] returns
    [r] exactly when [b + a] does. *)
Theorem add_commutative (a b r : Matrix) :
  add a b = Returns r <-> add b a = Returns r.
Proof.
  assert (H : forall x y, add x y = Returns r -> add y x = Returns r).
  { intros x y. rewrite !add_unfold.
    destruct (Z.eqb_spec (m_nrow x) (m_nrow y)) as [Hr|Hr];
      destruct (Z.eqb_spec (m_ncol x) (m_ncol y)) as [Hc|Hc]; simpl;
      try discriminate.
    intros [= <-].
    rewrite <- Hr, <- Hc, !Z.eqb_refl. simpl. do 2 f_equal. f_equal. lia. }
  split; apply H.
Qed.

(** X3.  Addition does not depend on the grouping either: [(a + b) + c] returns
    [r] exactly when [a + (b + c)] does. *)
Theorem add_associative (a b c r : Matrix) :
  match add a b with Returns ab => add ab c | o => o end = Returns r
  <->
  match add b c with Returns bc => add a bc | o => o end = Returns r.
Proof.
  rewrite (add_unfold a b), (add_unfold b c).
  destruct (Z.eqb_spec (m_nrow a) (m_nrow b)) as [Hr1|Hr1];
    destruct (Z.eqb_spec (m_ncol a) (m_ncol b)) as [Hc1|Hc1];
    destruct (Z.eqb_spec (m_nrow b) (m_nrow c)) as [Hr2|Hr2];
    destruct (Z.eqb_spec (m_ncol b) (m_ncol c)) as [Hc2|Hc2]; simpl;
    rewrite ?add_unfold; simpl;
    repeat match goal with
      | |- context [?x =? ?y] =>
          destruct (Z.eqb_spec x y); simpl; try congruence
      end;
    try (split; discriminate).
  assert (He : int32 (int32 (m_flops a + m_flops b + m_nrow a * m_ncol a)
                      + m_flops c + m_nrow a * m_ncol a)
             = int32 (m_flops a
                      + int32 (m_flops b + m_flops c + m_nrow b * m_ncol b)
                      + m_nrow a * m_ncol a)).
  { rewrite <- Hr1, <- Hc1. rewrite <- !Z.add_assoc, int32_add_l.
    rewrite (Z.add_comm (int32 _)), !Z.add_assoc, int32_add_r.
    f_equal. lia. }
  rewrite He. reflexivity.
Qed.

(** ** Groupings under [operator*] *)

Lemma int32_add3 x y z : int32 (int32 x + int32 y + z) = int32 (x + y + z).
Proof.
  rewrite <- Z.add_assoc, int32_add_l.
  replace (x + (int32 y + z)) with (int32 y + (x + z)) by lia.
  rewrite int32_add_l. f_equal; lia.
Qed.

Lemma left_comb_paren len : paren 0 len (left_comb len).
Proof.
  induction len as [|len IH]; simpl; [constructor|].
  apply (paren_node 0 len); [assumption|].
  replace (len + 1)%nat with (S len) by lia. constructor.
Qed.

Lemma eval_returns_or_throws leaf t :
  (exists m, eval leaf t = Returns m) \/ (exists w, eval leaf t = Throws w).
Proof.
  induction t as [i|l [[a Ha]|[w Hw]] r [[b Hb]|[w' Hw']]]; simpl;
    rewrite ?Ha, ?Hb, ?Hw, ?Hw'; eauto.
  rewrite mult_unfold. destruct (_ =? _); eauto.
Qed.

(** The shape of whatever a grouping evaluates to. *)
Lemma eval_returns_shape mats leaf :
  shaped_like mats leaf ->
  forall i j t m, paren i j t -> eval leaf t = Returns m ->
    m_nrow m = get_nrow (get_mat mats i) /\
    m_ncol m = get_ncol (get_mat mats j).
Proof.
  intros Hleaf i j t m Ht. revert m.
  induction Ht as [i|i k j l r Hl IHl Hr IHr]; intros m; simpl.
  - intros [= <-]. apply Hleaf.
  - destruct (eval leaf l) as [a| | |]; try discriminate.
    destruct (eval leaf r) as [b| | |]; try discriminate.
    rewrite mult_unfold. destruct (_ =? _); [|discriminate].
    intros [= <-]. simpl.
    destruct (IHl a eq_refl) as [-> _]. destruct (IHr b eq_refl) as [_ ->].
    now split.
Qed.

Lemma eval_returns_iff (mats : list Matrix)
    (leaf : nat -> Matrix) (i j : nat) (t : tree) :
  shaped_like mats leaf -> paren i j t ->
  ((exists m, eval leaf t = Returns m) <-> window_compatible mats i j).
Proof.
  intros Hleaf Ht.
  { induction Ht as [i|i k j l r Hl IHl Hr IHr].
    - split; [intros _ k Hk; lia|intros _; simpl; eauto].
    - pose proof (paren_le _ _ _ Hl). pose proof (paren_le _ _ _ Hr).
      simpl. split.
      + intros [m Hm].
        destruct (eval leaf l) as [a| | |] eqn:Ea; try discriminate.
        destruct (eval leaf r) as [b| | |] eqn:Eb; try discriminate.
        destruct (eval_returns_shape mats leaf Hleaf _ _ _ _ Hl Ea) as [_ Hac].
        destruct (eval_returns_shape mats leaf Hleaf _ _ _ _ Hr Eb) as [Hbr _].
        rewrite mult_unfold in Hm.
        destruct (Z.eqb_spec (m_ncol a) (m_nrow b)) as [He|]; [|discriminate].
        rewrite Hac, Hbr in He.
        pose proof (proj1 IHl ltac:(eauto)) as Cl.
        pose proof (proj1 IHr ltac:(eauto)) as Cr.
        intros k' Hk'.
        destruct (decide (k' < k)%nat); [apply Cl; lia|].
        destruct (decide (k' = k)) as [->|]; [exact He|apply Cr; lia].
      + intros Hc.
        destruct (proj2 IHl) as [a Ea]; [intros k' Hk'; apply Hc; lia|].
        destruct (proj2 IHr) as [b Eb]; [intros k' Hk'; apply Hc; lia|].
        rewrite Ea, Eb, mult_unfold.
        destruct (eval_returns_shape mats leaf Hleaf _ _ _ _ Hl Ea) as [_ ->].
        destruct (eval_returns_shape mats leaf Hleaf _ _ _ _ Hr Eb) as [-> _].
        rewrite (Hc k) by lia. rewrite Z.eqb_refl. eauto. }
Qed.

(** X5.  A grouping of a sub-chain multiplies through exactly when the sub-chain
    is adjacent-compatible, whatever the grouping; otherwise it throws the
    dimension-mismatch error. *)
Theorem eval_succeeds_iff_compatible (mats : list Matrix)
    (leaf : nat -> Matrix) (i j : nat) (t : tree) :
  shaped_like mats leaf -> paren i j t ->
  ((exists m, eval leaf t = Returns m) <-> window_compatible mats i j) /\
  (~ window_compatible mats i j -> exists w, eval leaf t = Throws w).
Proof.
  intros Hleaf Ht.
  pose proof (eval_returns_iff mats leaf i j t Hleaf Ht) as Hiff.
  split; [exact Hiff|].
  intros Hn. destruct (eval_returns_or_throws leaf t) as [Hm|Hw]; [|exact Hw].
  exfalso. apply Hn, Hiff, Hm.
Qed.

Lemma shaped_like_get_mat mats : shaped_like mats (get_mat mats).
Proof. intros i. split; reflexivity. Qed.

Lemma eval_succeeds_iff_compatible_witness :
  let mats := [Matrix_new 2 5; Matrix_new 5 3; Matrix_new 4 10] in
  exists w,
    eval (get_mat mats) (Node (Leaf 0) (Node (Leaf 1) (Leaf 2))) = Throws w.
Proof.
  intros mats.
  apply (eval_succeeds_iff_compatible mats (get_mat mats) 0 2).
  - apply shaped_like_get_mat.
  - apply (paren_node 0 0 2); [|apply (paren_node 1 1 2)]; constructor.
  - intros H. specialize (H 1%nat ltac:(lia)). vm_compute in H. discriminate.
Defined.

Lemma eval_value (mats : list Matrix) (leaf : nat -> Matrix)
    (i j : nat) (t : tree) :
  shaped_like mats leaf -> (forall k, in_int (m_flops (leaf k))) ->
  paren i j t -> window_compatible mats i j ->
  eval leaf t
  = Returns (mkMatrix (get_nrow (get_mat mats i)) (get_ncol (get_mat mats j))
               (int32 (operand_flops leaf t + tree_cost mats t))).
Proof.
  intros Hleaf Hint Ht. induction Ht as [i|i k j l r Hl IHl Hr IHr]; intros Hc.
  - simpl. rewrite Z.add_0_r, int32_id by apply Hint.
    destruct (Hleaf i) as [<- <-]. now destruct (leaf i).
  - pose proof (paren_le _ _ _ Hl). pose proof (paren_le _ _ _ Hr).
    cbn [eval]. rewrite IHl by (intros k' Hk'; apply Hc; lia).
    rewrite IHr by (intros k' Hk'; apply Hc; lia).
    rewrite mult_unfold. cbn [m_nrow m_ncol m_flops].
    rewrite (Hc k) by lia. rewrite Z.eqb_refl.
    rewrite <- (Hc k) by lia. do 2 f_equal.
    rewrite (paren_node_cost mats _ _ _ _ _ Hl Hr). cbn [operand_flops].
    rewrite int32_add3. f_equal; lia.
Qed.

(** X6.  What a grouping of a compatible sub-chain evaluates to: the shape
    (rows of the first, cols of the last) and, as flops, the [int] value of
    the flops its operands bring along plus the multiplication cost of the
    grouping. *)
Theorem eval_accumulates_cost (mats : list Matrix) (leaf : nat -> Matrix)
    (i j : nat) (t : tree) :
  shaped_like mats leaf -> (forall k, in_int (m_flops (leaf k))) ->
  paren i j t -> window_compatible mats i j ->
  eval leaf t
  = Returns (mkMatrix (get_nrow (get_mat mats i)) (get_ncol (get_mat mats j))
               (int32 (operand_flops leaf t + tree_cost mats t))).
Proof. apply eval_value. Qed.

Lemma eval_accumulates_cost_witness :
  let mats := [Matrix_new 2 5; Matrix_new 5 3; Matrix_new 3 10] in
  eval (get_mat mats) (Node (Leaf 0) (Node (Leaf 1) (Leaf 2)))
  = Returns (mkMatrix 2 10 475).
Proof.
  intros mats.
  rewrite (eval_accumulates_cost mats (get_mat mats) 0 2).
  - reflexivity.
  - apply shaped_like_get_mat.
  - intros k. do 4 (destruct k as [|k]; [vm_compute; split; discriminate|]).
    vm_compute; split; discriminate.
  - apply (paren_node 0 0 2); [|apply (paren_node 1 1 2)]; constructor.
  - intros k Hk. destruct k as [|[|k]]; [reflexivity|reflexivity|lia].
Defined.

(** ** The list helpers and the fold expressions *)

Lemma left_fold_failed op (o : outcome Matrix) args :
  (forall m, o <> Returns m) -> left_fold op o args = o.
Proof.
  intros Ho. induction args as [|a args IH]; simpl; [reflexivity|].
  destruct o as [m| | |]; try exact IH. now destruct (Ho m).
Qed.

Lemma assign_loop_left_fold op res rest :
  assign_loop op res rest = left_fold op (Returns res) rest.
Proof.
  revert res. induction rest as [|m rest IH]; intros res; simpl;
    [reflexivity|].
  destruct (op res m) as [res'| | |] eqn:E; [apply IH| | |];
    symmetry; now apply left_fold_failed.
Qed.

(** X7.  The loop of the list helpers and the fold expression are the same
    computation: on every non-empty sequence of operands, sums and products
    taken either way have the same outcome, exceptions included. *)
Theorem list_helpers_agree_with_folds (arg1 : Matrix) (args : list Matrix) :
  sum_using_initializer_list (arg1 :: args)
  = sum_using_fold_expression arg1 args /\
  product_using_initializer_list (arg1 :: args)
  = product_using_fold_expression arg1 args.
Proof. split; apply assign_loop_left_fold. Qed.

Lemma add_assign_same_shape acc m acc' :
  add_assign acc m = Returns acc' -> same_shape acc m /\ same_shape acc acc'.
Proof.
  unfold add_assign, same_shape. rewrite add_unfold.
  destruct (Z.eqb_spec (m_nrow acc) (m_nrow m));
    destruct (Z.eqb_spec (m_ncol acc) (m_ncol m)); simpl; try discriminate.
  intros [= <-]. simpl. auto.
Qed.

Lemma sum_loop_returns acc rest :
  in_int (m_flops acc) ->
  Forall (same_shape acc) rest ->
  assign_loop add_assign acc rest
  = Returns (mkMatrix (m_nrow acc) (m_ncol acc)
               (int32 (m_flops acc + total_flops rest
                       + Z.of_nat (length rest) * (m_nrow acc * m_ncol acc)))).
Proof.
  intros Hint Hall. revert acc Hint Hall.
  induction rest as [|m rest IH]; intros acc Hint Hall.
  - simpl. rewrite Z.add_0_r, Z.add_0_r, int32_id by assumption.
    now destruct acc.
  - inversion Hall as [|? ? [Hr Hc] Hrest]; subst.
    cbn [assign_loop]. unfold add_assign at 1. rewrite add_unfold.
    rewrite <- Hr, <- Hc, !Z.eqb_refl. cbn [andb].
    rewrite IH; [|apply int32_range|].
    + cbn [m_nrow m_ncol m_flops total_flops fold_right length].
      do 2 f_equal. rewrite <- !Z.add_assoc, int32_add_l.
      f_equal. fold (total_flops rest). lia.
    + eapply Forall_impl; [exact Hrest|].
      intros x [Hx1 Hx2]. split; simpl; congruence.
Qed.

(** X8.  [sum_using_initializer_list] returns exactly when the list is not empty
    and all its matrices have the shape of the first one; it then returns
    that shape with, as flops, the [int] value of the flops of all operands
    plus rows * cols for each of the additions.  Otherwise it throws. *)
Theorem sum_using_initializer_list_spec (mats : list Matrix) :
  ((exists r, sum_using_initializer_list mats = Returns r)
   <-> exists first rest,
         mats = first :: rest /\ Forall (same_shape first) rest) /\
  (forall first rest,
     mats = first :: rest -> Forall (same_shape first) rest ->
     in_int (m_flops first) ->
     sum_using_initializer_list mats
     = Returns (mkMatrix (m_nrow first) (m_ncol first)
                  (int32 (total_flops mats
                          + Z.of_nat (length rest)
                            * (m_nrow first * m_ncol first))))) /\
  ((forall r, sum_using_initializer_list mats <> Returns r) ->
   exists w, sum_using_initializer_list mats = Throws w).
Proof.
  split; [|split].
  - split.
    + intros [r Hr]. destruct mats as [|first rest]; [discriminate|].
      exists first, rest. split; [reflexivity|]. simpl in Hr.
      revert first r Hr. induction rest as [|m rest IH]; intros acc r Hr;
        [constructor|].
      simpl in Hr. destruct (add_assign acc m) as [acc'| | |] eqn:E;
        try discriminate.
      destruct (add_assign_same_shape _ _ _ E) as [Hm [Ha1 Ha2]].
      constructor; [exact Hm|].
      specialize (IH acc' r Hr).
      eapply Forall_impl; [exact IH|].
      intros x [Hx1 Hx2]. split; congruence.
    + intros (first & rest & -> & Hall). simpl.
      revert first Hall. induction rest as [|m rest IH]; intros acc Hall;
        simpl; [eauto|].
      inversion Hall as [|? ? [Hr Hc] Hrest]; subst.
      unfold add_assign at 1. rewrite add_unfold.
      rewrite <- Hr, <- Hc, !Z.eqb_refl. cbn [andb].
      apply IH. eapply Forall_impl; [exact Hrest|].
      intros x [Hx1 Hx2]. split; simpl; congruence.
  - intros first rest -> Hall Hint. simpl.
    rewrite sum_loop_returns by assumption. reflexivity.
  - intros Hno. destruct mats as [|first rest]; [simpl; eauto|]. simpl in *.
    revert first Hno. induction rest as [|m rest IH]; intros acc Hno; simpl.
    + now destruct (Hno acc).
    + simpl in Hno. unfold add_assign at 1 in Hno. unfold add_assign at 1.
      rewrite add_unfold in Hno |- *.
      destruct (_ && _); [|eauto]. now apply IH.
Qed.

Lemma eval_left_comb_failed leaf k (o : outcome Matrix) :
  (forall m, o <> Returns m) -> eval leaf (left_comb k) = o ->
  forall d, eval leaf (left_comb (k + d)) = o.
Proof.
  intros Ho Hk d. induction d as [|d IH].
  - now rewrite Nat.add_0_r.
  - replace (k + S d)%nat with (S (k + d)) by lia. simpl. rewrite IH.
    destruct o as [m| | |]; try reflexivity. now destruct (Ho m).
Qed.

Lemma product_loop_eval rest :
  forall p0 pre acc,
    eval (get_mat ((p0 :: pre) ++ rest)) (left_comb (length pre))
    = Returns acc ->
    assign_loop mult_assign acc rest
    = eval (get_mat ((p0 :: pre) ++ rest))
        (left_comb (length pre + length rest)).
Proof.
  induction rest as [|m rest IH]; intros p0 pre acc Hacc.
  - simpl length. now rewrite Nat.add_0_r.
  - assert (Hstep : eval (get_mat ((p0 :: pre) ++ m :: rest))
                      (left_comb (S (length pre)))
                    = mult acc m).
    { cbn [eval left_comb]. rewrite Hacc. unfold get_mat at 1.
      rewrite (list_lookup_total_middle (p0 :: pre) rest m); reflexivity. }
    cbn [assign_loop]. unfold mult_assign at 1.
    destruct (mult acc m) as [acc'| | |] eqn:E.
    + replace ((p0 :: pre) ++ m :: rest)%list
        with ((p0 :: (pre ++ [m])) ++ rest)%list
        in * by (simpl; now rewrite <- app_assoc).
      rewrite (IH p0 (pre ++ [m])%list acc').
      * f_equal. f_equal. rewrite length_app. simpl. lia.
      * rewrite length_app. simpl.
        now replace (length pre + 1)%nat with (S (length pre)) by lia.
    + replace (length pre + length (m :: rest))%nat
        with (S (length pre) + length rest)%nat by (simpl; lia).
      symmetry. now apply eval_left_comb_failed.
    + replace (length pre + length (m :: rest))%nat
        with (S (length pre) + length rest)%nat by (simpl; lia).
      symmetry. now apply eval_left_comb_failed.
    + replace (length pre + length (m :: rest))%nat
        with (S (length pre) + length rest)%nat by (simpl; lia).
      symmetry. now apply eval_left_comb_failed.
Qed.

Lemma product_left_comb first rest :
  product_using_initializer_list (first :: rest)
  = eval (get_mat (first :: rest)) (left_comb (length rest)).
Proof.
  simpl. apply (product_loop_eval rest first [] first). reflexivity.
Qed.

(** X9.  [product_using_initializer_list] is the left-to-right product: on every
    non-empty list it has the outcome of the expression
    [m0 * m1 * ... * mk], grouped from the left as C++ does. *)
Theorem product_is_left_nested (first : Matrix) (rest : list Matrix) :
  product_using_initializer_list (first :: rest)
  = eval (get_mat (first :: rest)) (left_comb (length rest)) /\
  paren 0 (length rest) (left_comb (length rest)).
Proof. split; [apply product_left_comb|apply left_comb_paren]. Qed.

Lemma compatible_window mats :
  compatible mats <-> window_compatible mats 0 (length mats - 1).
Proof.
  unfold compatible, window_compatible. split; intros H k Hk; apply H; lia.
Qed.

Lemma operand_flops_ext leaf leaf' t i j :
  paren i j t -> (forall k, (k <= j)%nat -> leaf k = leaf' k) ->
  operand_flops leaf t = operand_flops leaf' t.
Proof.
  induction 1 as [i|i k j l r Hl IHl Hr IHr]; intros Heq; simpl.
  - now rewrite Heq.
  - pose proof (paren_le _ _ _ Hr).
    rewrite IHl, IHr; [reflexivity|assumption|].
    intros k' Hk'. apply Heq. lia.
Qed.

Lemma total_flops_app l1 l2 :
  total_flops (l1 ++ l2) = total_flops l1 + total_flops l2.
Proof.
  induction l1 as [|x l1 IH]; simpl; [reflexivity|].
  unfold total_flops in *. simpl. rewrite IH. lia.
Qed.

Lemma operand_flops_left_comb first rest :
  operand_flops (get_mat (first :: rest)) (left_comb (length rest))
  = total_flops (first :: rest).
Proof.
  induction rest as [|x rest IH] using rev_ind;
    [unfold total_flops; simpl; unfold get_mat; simpl; lia|].
  rewrite length_app. simpl length.
  replace (length rest + 1)%nat with (S (length rest)) by lia.
  cbn [left_comb operand_flops].
  rewrite (operand_flops_ext _ (get_mat (first :: rest)) _ 0 (length rest)).
  - rewrite IH. change (first :: rest ++ [x])%list with ((first :: rest) ++ [x])%list.
    rewrite total_flops_app. f_equal.
    + unfold get_mat.
      rewrite (list_lookup_total_middle (first :: rest) [] x); [|reflexivity].
      unfold total_flops. simpl. lia.
  - apply left_comb_paren.
  - intros k Hk. unfold get_mat.
    change (first :: rest ++ [x])%list with ((first :: rest) ++ [x])%list.
    apply lookup_total_app_l. simpl. lia.
Qed.

(** X10.  [product_using_initializer_list] returns exactly when the list is not
    empty and adjacent-compatible, and throws otherwise; what it returns
    has the rows of the first matrix, the cols of the last and, as flops,
    the [int] value of the flops of all operands plus the cost of the
    left-to-right grouping. *)
Theorem product_using_initializer_list_spec (mats : list Matrix) :
  ((exists r, product_using_initializer_list mats = Returns r)
   <-> mats <> [] /\ compatible mats) /\
  ((forall r, product_using_initializer_list mats <> Returns r) ->
   exists w, product_using_initializer_list mats = Throws w) /\
  (mats <> [] -> compatible mats ->
   Forall (fun m => in_int (m_flops m)) mats ->
   product_using_initializer_list mats
   = Returns (mkMatrix (get_nrow (get_mat mats 0))
                (get_ncol (get_mat mats (length mats - 1)))
                (int32 (total_flops mats
                        + tree_cost mats (left_comb (length mats - 1)))))).
Proof.
  destruct mats as [|first rest].
  - split; [|split].
    + split; [intros [r H]; discriminate|intros [H _]; congruence].
    + intros _. simpl. eauto.
    + congruence.
  - rewrite product_left_comb.
    replace (length (first :: rest) - 1)%nat with (length rest)
      by (simpl; lia).
    pose proof (eval_returns_iff (first :: rest) (get_mat (first :: rest))
                  0 (length rest) _ (shaped_like_get_mat _)
                  (left_comb_paren (length rest))) as Hiff.
    split; [|split].
    + rewrite Hiff, compatible_window.
      replace (length (first :: rest) - 1)%nat with (length rest)
        by (simpl; lia).
      split; [intros H; split; [discriminate|exact H]|now intros [_ H]].
    + intros Hno.
      destruct (eval_returns_or_throws (get_mat (first :: rest))
                  (left_comb (length rest))) as [[m Hm]|Hw]; [|exact Hw].
      now destruct (Hno m).
    + intros _ Hc Hint.
      rewrite (eval_value (first :: rest) (get_mat (first :: rest))
                 0 (length rest)).
      * now rewrite operand_flops_left_comb.
      * apply shaped_like_get_mat.
      * intros k. unfold get_mat.
        destruct ((first :: rest) !! k) as [m|] eqn:E.
        -- rewrite (list_lookup_total_correct _ _ _ E).
           rewrite Forall_lookup in Hint. exact (Hint k m E).
        -- rewrite list_lookup_total_alt, E. vm_compute. split; discriminate.
      * apply left_comb_paren.
      * apply compatible_window in Hc.
        now replace (length (first :: rest) - 1)%nat with (length rest)
          in Hc by (simpl; lia).
Qed.

(** * Further properties of the optimizer *)

(** The four ways through [calc_optimal_mult_order]. *)
Lemma calc_cases (mats : list Matrix) (mat_names : list string) :
  (mat_names <> [] /\ length mat_names <> length mats /\
   calc_optimal_mult_order mats mat_names = Throws "wrong input sizes")
  \/
  (names_ok mats mat_names /\ mats = [] /\
   calc_optimal_mult_order mats mat_names = Returns (""%string, 0))
  \/
  (names_ok mats mat_names /\ mats <> [] /\ ~ compatible mats /\
   calc_optimal_mult_order mats mat_names = AssertFails)
  \/
  (names_ok mats mat_names /\ mats <> [] /\ compatible mats /\
   (calc_optimal_mult_order mats mat_names = Diverges \/
    exists s c, calc_optimal_mult_order mats mat_names = Returns (s, c))).
Proof.
  assert (Hnil : mat_names = [] <-> length mat_names = 0%nat)
    by (destruct mat_names; simpl; split; congruence).
  destruct (decide (mat_names <> [] /\ length mat_names <> length mats))
    as [[Hn Hl]|Hok].
  { left. repeat split; try assumption.
    unfold calc_optimal_mult_order.
    destruct (Nat.eqb_spec (length mat_names) 0); [tauto|].
    destruct (Nat.eqb_spec (length mat_names) (length mats)); [tauto|].
    reflexivity. }
  right.
  assert (Hnames : names_ok mats mat_names).
  { unfold names_ok.
    destruct (decide (mat_names = [])); [now left|].
    destruct (decide (length mat_names = length mats)); [now right|tauto]. }
  destruct mats as [|m rest] eqn:Hm.
  { left. repeat split; try assumption.
    unfold calc_optimal_mult_order.
    destruct Hnames as [-> |Hlen]; [reflexivity|].
    rewrite Hlen. reflexivity. }
  right. rewrite <- Hm in *.
  assert (Hne : mats <> []) by (rewrite Hm; discriminate).
  destruct (for_each_adjacent_pair mats
              (fun m1 m2 => get_ncol m1 =? get_nrow m2)) eqn:Hc.
  - right. apply for_each_adjacent_pair_compatible in Hc.
    repeat split; try assumption.
    rewrite (calc_valid _ _ Hne Hc Hnames).
    destruct (order_to_string _ _ _ _ _); eauto.
  - left.
    assert (Hnc : ~ compatible mats)
      by (rewrite <- for_each_adjacent_pair_compatible; congruence).
    repeat split; try assumption.
    unfold calc_optimal_mult_order.
    replace (negb (length mat_names =? 0)%nat
             && negb (length mat_names =? length mats)%nat) with false.
    + replace (length mats =? 0)%nat with false
        by (rewrite Hm; reflexivity).
      now rewrite Hc.
    + destruct Hnames as [-> |Hlen]; [reflexivity|].
      rewrite Hlen, Nat.eqb_refl. now rewrite andb_false_r.
Qed.

(** X12.  The two ways [calc_optimal_mult_order] fails: it throws only
    ["wrong input sizes"], and exactly when names are supplied in a number
    other than that of the matrices; its assertion fails exactly when the
    names are acceptable and the chain, not empty, is not
    adjacent-compatible. *)
Theorem calc_failure_modes (mats : list Matrix) (mat_names : list string) :
  (forall w,
     calc_optimal_mult_order mats mat_names = Throws w
     <-> w = "wrong input sizes"%string /\ mat_names <> []
         /\ length mat_names <> length mats) /\
  (calc_optimal_mult_order mats mat_names = AssertFails
   <-> names_ok mats mat_names /\ mats <> [] /\ ~ compatible mats).
Proof.
  assert (Hnil : mat_names = [] <-> length mat_names = 0%nat)
    by (destruct mat_names; simpl; split; congruence).
  destruct (calc_cases mats mat_names)
    as [(Hn & Hl & E)|[(Hn & Hm & E)|[(Hn & Hm & Hc & E)
       |(Hn & Hm & Hc & [E|(s & c & E)])]]]; rewrite E.
  - split; [intros w; split|split].
    + intros [= <-]. auto.
    + now intros [-> _].
    + discriminate.
    + intros [[?|?] _]; tauto.
  - split; [intros w|]; (split; [discriminate|]).
    + intros (_ & ? & ?). subst mats. destruct Hn as [?|?]; tauto.
    + tauto.
  - split; [intros w; split; [discriminate|]|tauto].
    intros (_ & ? & ?). destruct Hn as [?|?]; tauto.
  - split; [intros w|]; (split; [discriminate|]); [|tauto].
    intros (_ & ? & ?). destruct Hn as [?|?]; tauto.
  - split; [intros w|]; (split; [discriminate|]); [|tauto].
    intros (_ & ? & ?). destruct Hn as [?|?]; tauto.
Qed.

Lemma foldl_pointwise {A B : Type} (f g : A -> B -> A) l :
  (forall a b, f a b = g a b) -> forall a, foldl f a l = foldl g a l.
Proof.
  intros H. induction l as [|b l IH]; intros a; simpl; [reflexivity|].
  now rewrite H, IH.
Qed.

Lemma get_mat_refresh mats i :
  get_nrow (get_mat (refresh mats) i) = get_nrow (get_mat mats i) /\
  get_ncol (get_mat (refresh mats) i) = get_ncol (get_mat mats i).
Proof.
  unfold get_mat, refresh. rewrite !list_lookup_total_alt, list_lookup_fmap.
  destruct (mats !! i); simpl; split; reflexivity.
Qed.

Lemma fill_tables_refresh mats : fill_tables (refresh mats) = fill_tables mats.
Proof.
  assert (Hsc : forall mc i k j,
            split_cost (refresh mats) mc i k j = split_cost mats mc i k j).
  { intros mc i k j. unfold split_cost.
    destruct (get_mat_refresh mats i) as [-> _].
    destruct (get_mat_refresh mats k) as [_ ->].
    destruct (get_mat_refresh mats j) as [_ ->]. reflexivity. }
  assert (Hts : forall i j st k,
            try_split (refresh mats) i j st k = try_split mats i j st k).
  { intros i j st k. unfold try_split. now rewrite Hsc. }
  assert (Hsw : forall len st i,
            solve_window (refresh mats) len st i = solve_window mats len st i).
  { intros len st i. unfold solve_window. apply foldl_pointwise, Hts. }
  assert (Hsl : forall n st len,
            solve_length (refresh mats) n st len = solve_length mats n st len).
  { intros n st len. unfold solve_length. apply foldl_pointwise, Hsw. }
  unfold fill_tables, refresh. rewrite length_map.
  apply foldl_pointwise, Hsl.
Qed.

Lemma for_each_adjacent_pair_refresh mats :
  for_each_adjacent_pair (refresh mats)
    (fun m1 m2 => get_ncol m1 =? get_nrow m2)
  = for_each_adjacent_pair mats (fun m1 m2 => get_ncol m1 =? get_nrow m2).
Proof.
  induction mats as [|x [|y rest] IH]; try reflexivity.
  change (refresh (x :: y :: rest))
    with (Matrix_new (get_nrow x) (get_ncol x) :: refresh (y :: rest)).
  change (refresh (y :: rest))
    with (Matrix_new (get_nrow y) (get_ncol y) :: refresh rest) in *.
  cbn [for_each_adjacent_pair] in *. now rewrite IH.
Qed.

(** X13.  The optimizer looks at shapes only: the flops that the matrices of the
    chain have accumulated so far change nothing to the expression, to the
    cost or to the failure. *)
Theorem calc_ignores_accumulated_flops (mats : list Matrix)
    (mat_names : list string) :
  calc_optimal_mult_order (refresh mats) mat_names
  = calc_optimal_mult_order mats mat_names.
Proof.
  unfold calc_optimal_mult_order.
  rewrite fill_tables_refresh, for_each_adjacent_pair_refresh.
  unfold refresh. now rewrite length_map.
Qed.

Lemma paren_leaves i j t :
  paren i j t -> leaves t = seq i (j - i + 1).
Proof.
  induction 1 as [i|i k j l r Hl IHl Hr IHr]; simpl.
  - now replace (i - i + 1)%nat with 1%nat by lia.
  - pose proof (paren_le _ _ _ Hl). pose proof (paren_le _ _ _ Hr).
    rewrite IHl, IHr.
    replace (j - i + 1)%nat with ((k - i + 1) + (j - (k + 1) + 1))%nat by lia.
    rewrite (seq_app (k - i + 1) (j - (k + 1) + 1) i).
    now replace (i + (k - i + 1))%nat with (k + 1)%nat by lia.
Qed.

(** X14.  The expression returned for a non-empty chain is the rendering of a
    grouping in which every position of the chain occurs exactly once, from
    left to right. *)
Theorem expression_uses_every_position (mats : list Matrix)
    (mat_names : list string) (s : string) (c : Z) :
  mats <> [] ->
  calc_optimal_mult_order mats mat_names = Returns (s, c) ->
  exists t, s = render mat_names t /\ leaves t = seq 0 (length mats).
Proof.
  intros Hne H.
  destruct (calc_returns _ _ _ _ Hne H) as (Hc & t & Ht & -> & _).
  pose proof (last_index_lt mats Hne) as Hlast.
  destruct (order_tree_sound mats Hc (length mats) 0%nat (length mats - 1) t
              ltac:(lia) Hlast Ht) as [Hp _].
  exists t. split; [reflexivity|].
  rewrite (paren_leaves _ _ _ Hp). f_equal. lia.
Qed.

Lemma expression_uses_every_position_witness :
  exists t, "((A * (B * C)) * D)"%string = render ["A"; "B"; "C"; "D"] t /\
            leaves t = [0; 1; 2; 3]%nat.
Proof.
  apply (expression_uses_every_position ABCD ["A"; "B"; "C"; "D"] _ 50200).
  - discriminate.
  - reflexivity.
Defined.

(** X15.  On a chain whose costs are in range, the expression returned is that
    of an optimal grouping: its own multiplication cost is the returned
    cost, and no full parenthesization of the chain costs less. *)
Theorem returned_grouping_is_optimal (mats : list Matrix)
    (mat_names : list string) (s : string) (c : Z) :
  mats <> [] -> costs_in_range mats ->
  calc_optimal_mult_order mats mat_names = Returns (s, c) ->
  exists t,
    s = render mat_names t /\ paren 0 (length mats - 1) t /\
    tree_cost mats t = c /\
    forall t', paren 0 (length mats - 1) t' ->
               tree_cost mats t <= tree_cost mats t'.
Proof.
  intros Hne Hr H.
  destruct (calc_returns _ _ _ _ Hne H) as (Hc & t & Ht & -> & ->).
  pose proof (last_index_lt mats Hne) as Hlast.
  destruct (order_tree_sound mats Hc (length mats) 0%nat (length mats - 1) t
              ltac:(lia) Hlast Ht) as [Hp He].
  assert (Hcost : tree_cost mats t
                  = table_get (min_cost (fill_tables mats)) 0
                      (length mats - 1)).
  { rewrite (eval_value mats (fresh mats) 0 (length mats - 1) t) in He.
    - injection He as He. rewrite <- He.
      assert (Hz : operand_flops (fresh mats) t = 0).
      { clear. induction t; simpl; [reflexivity|lia]. }
      rewrite Hz, Z.add_0_l. symmetry. apply int32_id.
      pose proof (Hr 0%nat _ t Hlast Hp). unfold in_int, int_max in *. lia.
    - intros i. split; reflexivity.
    - intros k. vm_compute. split; discriminate.
    - assumption.
    - now apply compatible_window. }
  exists t. repeat split; try assumption.
  intros t' Ht'. rewrite Hcost.
  apply (min_cost_optimal mats Hr 0 (length mats - 1) ltac:(lia) Hlast).
  assumption.
Qed.

Lemma returned_grouping_is_optimal_witness :
  exists t,
    "((A * (B * C)) * D)"%string = render ["A"; "B"; "C"; "D"] t /\
    paren 0 3 t /\ tree_cost ABCD t = 50200 /\
    forall t', paren 0 3 t' -> tree_cost ABCD t <= tree_cost ABCD t'.
Proof.
  apply (returned_grouping_is_optimal ABCD ["A"; "B"; "C"; "D"]).
  - discriminate.
  - exact ABCD_in_range.
  - reflexivity.
Defined.

(** X16.  On a chain whose costs are in range, the cost returned is at most the
    flops of the left-to-right product of freshly constructed matrices,
    which [product_using_initializer_list] computes without throwing. *)
Theorem optimal_not_above_left_to_right (mats : list Matrix)
    (mat_names : list string) (s : string) (c : Z) :
  mats <> [] -> costs_in_range mats ->
  calc_optimal_mult_order mats mat_names = Returns (s, c) ->
  exists m,
    product_using_initializer_list (refresh mats) = Returns m /\
    c <= m_flops m.
Proof.
  intros Hne Hr H.
  destruct (calc_returns _ _ _ _ Hne H) as (Hc & _ & _ & _ & ->).
  pose proof (last_index_lt mats Hne) as Hlast.
  assert (Hlen : length (refresh mats) = length mats)
    by (unfold refresh; apply length_map).
  destruct (refresh mats) as [|first rest] eqn:Hm;
    [destruct mats; [congruence|discriminate]|].
  rewrite product_left_comb, <- Hm.
  assert (Hrest : length rest = (length mats - 1)%nat)
    by (simpl in Hlen; lia).
  rewrite Hrest.
  pose proof (left_comb_paren (length mats - 1)) as Hp.
  rewrite (eval_value mats (get_mat (refresh mats)) 0 (length mats - 1)).
  - eexists. split; [reflexivity|]. simpl.
    assert (Hz : forall t, operand_flops (get_mat (refresh mats)) t = 0).
    { clear. induction t as [i|l IHl r IHr]; simpl; [|lia].
      unfold get_mat, refresh.
      rewrite list_lookup_total_alt, list_lookup_fmap.
      now destruct (mats !! i). }
    rewrite Hz, Z.add_0_l.
    pose proof (Hr 0%nat _ _ Hlast Hp).
    rewrite int32_id by (unfold in_int, int_max in *; lia).
    now apply (min_cost_optimal mats Hr 0 (length mats - 1) ltac:(lia) Hlast).
  - intros i. apply get_mat_refresh.
  - intros k. unfold get_mat, refresh.
    rewrite list_lookup_total_alt, list_lookup_fmap.
    destruct (mats !! k); vm_compute; split; discriminate.
  - assumption.
  - now apply compatible_window.
Qed.

Lemma optimal_not_above_left_to_right_witness :
  exists m,
    product_using_initializer_list (refresh ABCD) = Returns m /\
    50200 <= m_flops m.
Proof.
  apply (optimal_not_above_left_to_right ABCD ["A"; "B"; "C"; "D"]
           "((A * (B * C)) * D)"%string).
  - discriminate.
  - exact ABCD_in_range.
  - reflexivity.
Defined.

(** X17.  On a chain whose costs are in range, every entry [(a, b)] with
    [a <= b] of the cost table is the least cost of a full parenthesization
    of the sub-chain [[a, b]], every entry with [a < b] of the split table
    lies in [[a, b)], and the entries below the diagonal are still 0. *)
Theorem tables_hold_sub_chain_optima (mats : list Matrix) (a b : nat) :
  costs_in_range mats -> (a < length mats)%nat -> (b < length mats)%nat ->
  ((a <= b)%nat ->
   is_min_cost mats a b (table_get (min_cost (fill_tables mats)) a b)) /\
  ((a < b)%nat ->
   (a <= table_get (min_index (fill_tables mats)) a b < b)%nat) /\
  ((b < a)%nat ->
   table_get (min_cost (fill_tables mats)) a b = 0 /\
   table_get (min_index (fill_tables mats)) a b = 0%nat).
Proof.
  intros Hr Ha Hb. split; [|split].
  - intros Hab. now apply min_cost_optimal.
  - intros Hab. now apply min_index_in_window.
  - intros Hab. apply diagonal_entry; lia.
Qed.

Lemma tables_hold_sub_chain_optima_witness :
  is_min_cost ABCD 1 3 (table_get (min_cost (fill_tables ABCD)) 1 3) /\
  table_get (min_cost (fill_tables ABCD)) 1 3 = 23200.
Proof.
  split; [|reflexivity].
  apply (tables_hold_sub_chain_optima ABCD 1 3 ABCD_in_range);
    simpl; lia.
Defined.

(** * The variant of [src/matrix.cpp] *)

(** A rendering of this variant follows the same grouping as
    [order_to_string], and has read a name at each of its positions. *)
Lemma rendered_tree fuel idx mat_names :
  forall i j s,
    MatrixCpp.order_to_string fuel idx i j mat_names = MatrixCpp.Rendered s ->
    exists t, order_tree fuel idx i j = Some t /\
              s = MatrixCpp.render mat_names t /\
              Forall (fun p => (p < length mat_names)%nat) (leaves t).
Proof.
  induction fuel as [|fuel IH]; intros i j s H; [discriminate|].
  simpl in H |- *. destruct (decide (i = j)) as [->|Hne].
  - destruct (mat_names !! j) as [name|] eqn:E; [|discriminate].
    injection H as <-. exists (Leaf j). simpl. rewrite E.
    repeat split. constructor; [|constructor].
    now apply lookup_lt_Some in E.
  - destruct (MatrixCpp.order_to_string fuel idx i _ mat_names)
      as [l| |] eqn:El; try discriminate.
    destruct (MatrixCpp.order_to_string fuel idx _ j mat_names)
      as [r| |] eqn:Er; try discriminate.
    injection H as <-.
    destruct (IH _ _ _ El) as (tl & -> & -> & Hl).
    destruct (IH _ _ _ Er) as (tr & -> & -> & Hr).
    exists (Node tl tr). repeat split. simpl. now apply Forall_app.
Qed.

Lemma tree_rendered fuel idx mat_names :
  forall i j t,
    order_tree fuel idx i j = Some t ->
    Forall (fun p => (p < length mat_names)%nat) (leaves t) ->
    MatrixCpp.order_to_string fuel idx i j mat_names
    = MatrixCpp.Rendered (MatrixCpp.render mat_names t).
Proof.
  induction fuel as [|fuel IH]; intros i j t H Hin; [discriminate|].
  simpl in H |- *. destruct (decide (i = j)) as [->|Hne].
  - injection H as <-. simpl in *.
    inversion Hin as [|? ? Hj _]; subst.
    destruct (lookup_lt_is_Some_2 mat_names j Hj) as [name ->]. reflexivity.
  - destruct (order_tree fuel idx i _) as [l|] eqn:El; [|discriminate].
    destruct (order_tree fuel idx _ j) as [r|] eqn:Er; [|discriminate].
    injection H as <-. simpl in Hin. apply Forall_app in Hin as [Hl Hr].
    now rewrite (IH _ _ _ El Hl), (IH _ _ _ Er Hr).
Qed.

(** X20.  With one name per matrix, the two variants of the optimizer return
    together, with the same cost and the same grouping, written with
    [" * "] by the one and [" x "] by the other; and the assertion of the
    one fails when that of the other does. *)
Theorem variants_agree (mats : list Matrix) (mat_names : list string) :
  mats <> [] -> length mat_names = length mats ->
  (forall s c,
     calc_optimal_mult_order mats mat_names = Returns (s, c) ->
     exists t,
       s = render mat_names t /\
       MatrixCpp.calc_optimal_mult_order mats mat_names
       = MatrixCpp.Completed (Returns (MatrixCpp.render mat_names t, c))) /\
  (forall s' c,
     MatrixCpp.calc_optimal_mult_order mats mat_names
     = MatrixCpp.Completed (Returns (s', c)) ->
     exists t,
       s' = MatrixCpp.render mat_names t /\
       calc_optimal_mult_order mats mat_names
       = Returns (render mat_names t, c)) /\
  (calc_optimal_mult_order mats mat_names = AssertFails
   <-> MatrixCpp.calc_optimal_mult_order mats mat_names
       = MatrixCpp.Completed AssertFails).
Proof.
  intros Hne Hlen.
  pose proof (last_index_lt mats Hne) as Hlast.
  assert (Hn : names_ok mats mat_names) by now right.
  assert (Hl0 : (length mats =? 0)%nat = false)
    by (destruct mats; [congruence|reflexivity]).
  destruct (for_each_adjacent_pair mats
              (fun m1 m2 => get_ncol m1 =? get_nrow m2)) eqn:Hfe.
  - assert (Hc : compatible mats)
      by now apply for_each_adjacent_pair_compatible.
    unfold MatrixCpp.calc_optimal_mult_order.
    rewrite Hl0, Hfe. cbn [negb]. cbv zeta.
    rewrite (calc_valid _ _ Hne Hc Hn), order_to_string_render.
    split; [|split].
    + intros s c H.
      destruct (order_tree _ _ _ _) as [t|] eqn:Ht; [|discriminate].
      simpl in H. injection H as <- <-. exists t. split; [reflexivity|].
      destruct (order_tree_sound mats Hc (length mats) 0%nat (length mats - 1)
                  t ltac:(lia) Hlast Ht) as [Hp _].
      rewrite (tree_rendered _ _ _ _ _ _ Ht); [reflexivity|].
      rewrite (paren_leaves _ _ _ Hp), Hlen.
      apply Forall_forall. intros p Hp'. apply elem_of_seq in Hp'. lia.
    + intros s' c H.
      destruct (MatrixCpp.order_to_string _ _ _ _ _) as [s| |] eqn:Es;
        try discriminate.
      injection H as <- <-.
      destruct (rendered_tree _ _ _ _ _ _ Es) as (t & -> & -> & _).
      exists t. split; reflexivity.
    + split.
      * destruct (order_tree _ _ _ _); discriminate.
      * destruct (MatrixCpp.order_to_string _ _ _ _ _); discriminate.
  - unfold MatrixCpp.calc_optimal_mult_order, calc_optimal_mult_order.
    rewrite Hl0, Hfe, Hlen, Nat.eqb_refl. cbn [negb].
    rewrite andb_false_r.
    split; [|split]; try discriminate. split; reflexivity.
Qed.

Lemma variants_agree_witness :
  exists t,
    "((A * (B * C)) * D)"%string = render ["A"; "B"; "C"; "D"] t /\
    MatrixCpp.calc_optimal_mult_order ABCD ["A"; "B"; "C"; "D"]
    = MatrixCpp.Completed
        (Returns (MatrixCpp.render ["A"; "B"; "C"; "D"] t, 50200)).
Proof.
  apply (proj1 (variants_agree ABCD ["A"; "B"; "C"; "D"]
                  ltac:(discriminate) eq_refl)).
  reflexivity.
Defined.



(** X22.  [calc_mult_flops] returns exactly on the adjacent-compatible chains,
    the empty one included, and throws on the others; for operands whose
    flops an [int] holds, what it returns is the [int] value of the flops of
    all operands plus the cost of the left-to-right grouping. *)
Theorem calc_mult_flops_spec (mats : list Matrix) :
  ((exists z, MatrixCpp.calc_mult_flops mats = Returns z)
   <-> compatible mats) /\
  (~ compatible mats ->
   exists w, MatrixCpp.calc_mult_flops mats = Throws w) /\
  (compatible mats -> Forall (fun m => in_int (m_flops m)) mats ->
   MatrixCpp.calc_mult_flops mats
   = Returns (int32 (total_flops mats
                     + tree_cost mats (left_comb (length mats - 1))))).
Proof.
  destruct mats as [|first rest].
  - assert (Hc : compatible []) by (intros i Hi; simpl in Hi; lia).
    split; [|split].
    + split; [intros _; exact Hc|intros _; simpl; eauto].
    + intros H. now destruct H.
    + intros _ _. reflexivity.
  - unfold MatrixCpp.calc_mult_flops.
    change (assign_loop mult_assign first rest)
      with (product_using_initializer_list (first :: rest)).
    rewrite product_left_comb.
    replace (length (first :: rest) - 1)%nat with (length rest)
      by (simpl; lia).
    pose proof (eval_returns_iff (first :: rest) (get_mat (first :: rest))
                  0 (length rest) _ (shaped_like_get_mat _)
                  (left_comb_paren (length rest))) as Hiff.
    assert (Hcw : compatible (first :: rest)
                  <-> window_compatible (first :: rest) 0 (length rest)).
    { rewrite compatible_window.
      now replace (length (first :: rest) - 1)%nat with (length rest)
        by (simpl; lia). }
    split; [|split].
    + rewrite Hcw, <- Hiff. split.
      * intros [z Hz].
        destruct (eval _ _) as [m| | |]; try discriminate. eauto.
      * intros [m ->]. eauto.
    + intros Hnc.
      destruct (eval_returns_or_throws (get_mat (first :: rest))
                  (left_comb (length rest))) as [Hm|[w ->]]; [|eauto].
      destruct Hnc. apply Hcw, Hiff, Hm.
    + intros Hc Hint.
      rewrite (eval_value (first :: rest) (get_mat (first :: rest))
                 0 (length rest)).
      * now rewrite operand_flops_left_comb.
      * apply shaped_like_get_mat.
      * intros k. unfold get_mat.
        destruct ((first :: rest) !! k) as [m|] eqn:E.
        -- rewrite (list_lookup_total_correct _ _ _ E).
           rewrite Forall_lookup in Hint. exact (Hint k m E).
        -- rewrite list_lookup_total_alt, E. vm_compute. split; discriminate.
      * apply left_comb_paren.
      * now apply Hcw.
Qed.

(** * The variant with separate counters *)

Ltac int32_push :=
  unfold int_add, int_sub, int_mul;
  repeat (rewrite int32_mul_l || rewrite int32_mul_r
          || rewrite int32_add_l || rewrite int32_add_r
          || rewrite int32_sub_l || rewrite int32_add3
          || rewrite Z.add_assoc).

(** X23.  Counting additions and multiplications apart changes nothing to the
    rest: from operands that stand for one another, [operator+] and
    [operator*] of the two variants fail together, and otherwise return
    results that stand for one another, same shape and the two counters
    adding up to the flops. *)
Theorem separate_counters_add_up (a2 b2 : Counters.Matrix) (a b : Matrix) :
  stands_for a2 a -> stands_for b2 b ->
  (forall r, mult a b = Returns r ->
     exists r2, Counters.mult a2 b2 = Returns r2 /\ stands_for r2 r) /\
  (forall r, add a b = Returns r ->
     exists r2, Counters.add a2 b2 = Returns r2 /\ stands_for r2 r) /\
  ((exists w, mult a b = Throws w)
   <-> exists w, Counters.mult a2 b2 = Throws w) /\
  ((exists w, add a b = Throws w)
   <-> exists w, Counters.add a2 b2 = Throws w).
Proof.
  intros (Har & Hac & Haf) (Hbr & Hbc & Hbf).
  unfold Counters.mult, Counters.add. rewrite mult_unfold, add_unfold.
  rewrite Har, Hac, Hbr, Hbc.
  split; [|split; [|split]].
  - intros r H. destruct (m_ncol a =? m_nrow b); [|discriminate].
    injection H as <-. eexists. split; [reflexivity|].
    unfold stands_for, Counters.get_flops. cbn. repeat split.
    rewrite <- Haf, <- Hbf. unfold Counters.get_flops.
    int32_push. f_equal; ring.
  - intros r H.
    destruct ((m_nrow a =? m_nrow b) && (m_ncol a =? m_ncol b)) eqn:E;
      [|discriminate].
    apply andb_true_iff in E as [E1 E2]. rewrite E1, E2. cbn.
    injection H as <-. eexists. split; [reflexivity|].
    unfold stands_for, Counters.get_flops. cbn. repeat split.
    rewrite <- Haf, <- Hbf. unfold Counters.get_flops.
    int32_push. f_equal; ring.
  - destruct (m_ncol a =? m_nrow b); cbn;
      split; intros [w H]; try discriminate; eauto.
  - destruct (m_nrow a =? m_nrow b); destruct (m_ncol a =? m_ncol b); cbn;
      split; intros [w H]; try discriminate; eauto.
Qed.

Lemma separate_counters_add_up_witness :
  exists r2,
    Counters.mult (Counters.Matrix_new 2 5) (Counters.Matrix_new 5 10)
    = Returns r2 /\
    stands_for r2 (mkMatrix 2 10 190) /\
    Counters.add_ops r2 = 90 /\ Counters.mult_ops r2 = 100.
Proof.
  destruct (proj1 (separate_counters_add_up
                     (Counters.Matrix_new 2 5) (Counters.Matrix_new 5 10)
                     (Matrix_new 2 5) (Matrix_new 5 10)
                     ltac:(repeat split) ltac:(repeat split))
              (mkMatrix 2 10 190) eq_refl) as (r2 & Hr2 & Hs).
  exists r2. split; [exact Hr2|]. split; [exact Hs|].
  vm_compute in Hr2. injection Hr2 as <-. split; reflexivity.
Defined.

(** * The printed forms *)

Lemma string_app_assoc (a b c : string) : (a ++ b) ++ c = a ++ (b ++ c).
Proof. induction a as [|x a IH]; simpl; [reflexivity|now rewrite IH]. Qed.

Lemma string_app_inv_head (a x y : string) : a ++ x = a ++ y -> x = y.
Proof.
  induction a as [|c a IH]; simpl; [auto|]. intros [= H]. auto.
Qed.

Lemma uint_all_numeric d : all_numeric (NilEmpty.string_of_uint d) = true.
Proof. induction d; simpl; auto. Qed.

Lemma to_string_numeric z : all_numeric (to_string z) = true.
Proof.
  unfold to_string. destruct z as [|p|p]; simpl; [reflexivity| |].
  - unfold NilZero.string_of_uint.
    destruct (Pos.to_uint p); try reflexivity; apply uint_all_numeric.
  - unfold NilZero.string_of_uint.
    destruct (Pos.to_uint p); try reflexivity; apply uint_all_numeric.
Qed.

Lemma to_string_inj a b : to_string a = to_string b -> a = b.
Proof.
  unfold to_string. intros H. apply DecimalZ.to_int_inj.
  assert (Hn : forall z, Z.to_int z <> Decimal.Pos Decimal.Nil /\
                         Z.to_int z <> Decimal.Neg Decimal.Nil).
  { intros [|p|p]; simpl; split; try discriminate;
      intros [= E]; now apply (DecimalPos.Unsigned.to_uint_nonnil p). }
  apply (f_equal NilZero.int_of_string) in H.
  rewrite !NilZero.isi in H by apply Hn. now injection H.
Qed.

(** Two numerals followed by something that does not go on like a numeral
    can be told apart from what follows. *)
Lemma numeric_prefix d1 :
  forall d2 x y,
    all_numeric d1 = true -> all_numeric d2 = true ->
    starts_numeric x = false -> starts_numeric y = false ->
    d1 ++ x = d2 ++ y -> d1 = d2 /\ x = y.
Proof.
  induction d1 as [|c d1 IH]; intros [|c' d2] x y H1 H2 Hx Hy H; simpl in *.
  - now split.
  - subst x. simpl in Hx. apply andb_true_iff in H2 as [H2 _]. congruence.
  - subst y. simpl in Hy. apply andb_true_iff in H1 as [H1 _]. congruence.
  - injection H as -> H.
    apply andb_true_iff in H1 as [_ H1]. apply andb_true_iff in H2 as [_ H2].
    destruct (IH d2 x y H1 H2 Hx Hy H) as [-> ->]. now split.
Qed.

(** X19.  [operator<<] loses nothing: two matrices that print alike are equal. *)
Theorem print_injective (a b : Matrix) : print a = print b -> a = b.
Proof.
  unfold print, get_nrow, get_ncol, get_flops. intros H.
  apply (string_app_inv_head "<dims: ") in H.
  apply numeric_prefix in H as [Hr H];
    [|apply to_string_numeric|apply to_string_numeric|reflexivity|reflexivity].
  apply (string_app_inv_head " x ") in H.
  apply numeric_prefix in H as [Hc H];
    [|apply to_string_numeric|apply to_string_numeric|reflexivity|reflexivity].
  apply (string_app_inv_head ", flops: ") in H.
  apply numeric_prefix in H as [Hf _];
    [|apply to_string_numeric|apply to_string_numeric|reflexivity|reflexivity].
  apply to_string_inj in Hr, Hc, Hf.
  destruct a, b. simpl in *. congruence.
Qed.

Lemma print_injective_witness :
  print (mkMatrix 2 10 190) = "<dims: 2 x 10, flops: 190>"%string /\
  mkMatrix 2 10 190 = mkMatrix 2 10 190.
Proof.
  split; [reflexivity|].
  apply (print_injective (mkMatrix 2 10 190) (mkMatrix 2 10 190)).
  reflexivity.
Defined.

Lemma default_label i :
  Z.of_nat i < int_max ->
  mat_label [] i = String "M" (to_string (Z.of_nat i + 1)).
Proof.
  intros Hi. unfold mat_label, int_add.
  rewrite int32_id by (unfold in_int, int_min, int_max in *; lia).
  reflexivity.
Qed.

(** With the default labels, an expression followed by something that does
    not go on like a numeral determines its grouping and what follows. *)
Lemma render_default_prefix t1 :
  forall t2 x y,
    Forall (fun p => Z.of_nat p < int_max) (leaves t1) ->
    Forall (fun p => Z.of_nat p < int_max) (leaves t2) ->
    starts_numeric x = false -> starts_numeric y = false ->
    render [] t1 ++ x = render [] t2 ++ y -> t1 = t2 /\ x = y.
Proof.
  induction t1 as [i|l1 IHl r1 IHr]; intros [j|l2 r2] x y H1 H2 Hx Hy H.
  - simpl in H1, H2. inversion H1 as [|? ? Hi _]. inversion H2 as [|? ? Hj _].
    subst. cbn [render] in H. rewrite !default_label in H by assumption.
    simpl in H. injection H as H.
    apply numeric_prefix in H as [H ->];
      [|apply to_string_numeric|apply to_string_numeric|assumption|assumption].
    apply to_string_inj in H. split; [f_equal; lia|reflexivity].
  - simpl in H1. inversion H1 as [|? ? Hi _]. subst.
    cbn [render] in H. rewrite default_label in H by assumption.
    simpl in H. discriminate.
  - simpl in H2. inversion H2 as [|? ? Hj _]. subst.
    cbn [render] in H. rewrite default_label in H by assumption.
    simpl in H. discriminate.
  - simpl in H1, H2.
    apply Forall_app in H1 as [H1l H1r]. apply Forall_app in H2 as [H2l H2r].
    cbn [render] in H. simpl in H. injection H as H.
    rewrite !string_app_assoc in H.
    apply IHl in H as [-> H]; try assumption; try reflexivity.
    apply (string_app_inv_head " * ") in H.
    rewrite !string_app_assoc in H.
    apply IHr in H as [-> H]; try assumption; try reflexivity.
    injection H as ->. now split.
Qed.

(** X18.  With the default labels the expression tells the grouping: two
    groupings of positions below [INT_MAX] that are rendered alike are the
    same grouping. *)
Theorem default_expression_determines_grouping (t1 t2 : tree) :
  Forall (fun p => Z.of_nat p < int_max) (leaves t1) ->
  Forall (fun p => Z.of_nat p < int_max) (leaves t2) ->
  render [] t1 = render [] t2 -> t1 = t2.
Proof.
  intros H1 H2 H.
  apply (render_default_prefix t1 t2 ""%string ""%string H1 H2 eq_refl eq_refl).
  now rewrite H.
Qed.

Lemma default_expression_determines_grouping_witness :
  Node (Node (Leaf 0) (Node (Leaf 1) (Leaf 2))) (Leaf 3)
  = Node (Node (Leaf 0) (Node (Leaf 1) (Leaf 2))) (Leaf 3) /\
  render [] (Node (Node (Leaf 0) (Node (Leaf 1) (Leaf 2))) (Leaf 3))
  = "((M1 * (M2 * M3)) * M4)"%string.
Proof.
  split; [|reflexivity].
  apply default_expression_determines_grouping.
  - repeat constructor.
  - repeat constructor.
  - reflexivity.
Defined.

Lemma diff_dims_error_inj a b a' b' :
  diff_dims_error a b = diff_dims_error a' b' ->
  (m_nrow a = m_nrow a' /\ m_ncol a = m_ncol a') /\
  (m_nrow b = m_nrow b' /\ m_ncol b = m_ncol b').
Proof.
  unfold diff_dims_error, get_nrow, get_ncol. intros H.
  apply (string_app_inv_head "A: ") in H.
  apply numeric_prefix in H as [H1 H];
    [|apply to_string_numeric|apply to_string_numeric|reflexivity|reflexivity].
  apply (string_app_inv_head "x") in H.
  apply numeric_prefix in H as [H2 H];
    [|apply to_string_numeric|apply to_string_numeric|reflexivity|reflexivity].
  apply (string_app_inv_head ", B: ") in H.
  apply numeric_prefix in H as [H3 H];
    [|apply to_string_numeric|apply to_string_numeric|reflexivity|reflexivity].
  apply (string_app_inv_head "x") in H.
  apply to_string_inj in H1, H2, H3, H. auto.
Qed.

(** X4.  The message of a dimension mismatch tells the operation and the shapes
    of both operands: two failed additions, or two failed multiplications,
    with the same message had operands of the same shapes, and no message
    of an addition is a message of a multiplication. *)
Theorem mismatch_message_tells_shapes (a b a' b' : Matrix) (w : string) :
  (add a b = Throws w -> add a' b' = Throws w ->
   (m_nrow a = m_nrow a' /\ m_ncol a = m_ncol a') /\
   (m_nrow b = m_nrow b' /\ m_ncol b = m_ncol b')) /\
  (mult a b = Throws w -> mult a' b' = Throws w ->
   (m_nrow a = m_nrow a' /\ m_ncol a = m_ncol a') /\
   (m_nrow b = m_nrow b' /\ m_ncol b = m_ncol b')) /\
  (add a b = Throws w -> mult a' b' <> Throws w).
Proof.
  assert (Hthrow : forall x y : string,
            @Throws Matrix x = Throws y -> x = y) by (intros x y; congruence).
  rewrite !add_unfold, !mult_unfold. split; [|split].
  - destruct (_ && _); [discriminate|]. destruct (_ && _); [discriminate|].
    intros E1 E2. rewrite <- E2 in E1. apply Hthrow in E1.
    apply (string_app_inv_head "add: dimensions do not match: ") in E1.
    now apply diff_dims_error_inj.
  - destruct (_ =? _); [discriminate|]. destruct (_ =? _); [discriminate|].
    intros E1 E2. rewrite <- E2 in E1. apply Hthrow in E1.
    apply (string_app_inv_head "mult: dimensions do not match: ") in E1.
    now apply diff_dims_error_inj.
  - destruct (_ && _); [discriminate|]. intros [= <-].
    destruct (_ =? _); discriminate.
Qed.

(** X11.  [for_each_adjacent_pair] applies its function to the pairs of
    neighbours and to nothing else: all the assertions hold exactly when
    the function holds of every element and its successor; with fewer than
    two elements there is nothing to call. *)
Theorem for_each_adjacent_pair_spec {A : Type} (l : list A)
    (func : A -> A -> bool) :
  (for_each_adjacent_pair l func = true
   <-> forall i x y, l !! i = Some x -> l !! (i + 1)%nat = Some y ->
                     func x y = true) /\
  ((length l < 2)%nat -> for_each_adjacent_pair l func = true).
Proof.
  split.
  - induction l as [|x [|y rest] IH].
    + split; [intros _ i ? ? H; discriminate|reflexivity].
    + split; [intros _ [|i] ? ? H1 H2; discriminate|reflexivity].
    + change (for_each_adjacent_pair (x :: y :: rest) func)
        with (func x y && for_each_adjacent_pair (y :: rest) func).
      rewrite andb_true_iff, IH. split.
      * intros [Hxy Hrest] [|i] u v Hu Hv.
        -- simpl in Hu, Hv. congruence.
        -- apply (Hrest i); assumption.
      * intros H. split; [apply (H 0%nat); reflexivity|].
        intros i u v Hu Hv. apply (H (S i)); assumption.
  - destruct l as [|x [|y rest]]; simpl; intros H; try reflexivity; lia.
Qed.

Lemma add_commutative_witness :
  add (Matrix_new 2 10) (mkMatrix 2 10 20) = Returns (mkMatrix 2 10 40).
Proof.
  apply (proj1 (add_commutative (mkMatrix 2 10 20) (Matrix_new 2 10) _)).
  reflexivity.
Defined.

Lemma add_associative_witness :
  match add (mkMatrix 2 10 3) (mkMatrix 2 10 4) with
  | Returns bc => add (mkMatrix 2 10 5) bc
  | o => o
  end = Returns (mkMatrix 2 10 52).
Proof.
  apply (proj1 (add_associative (mkMatrix 2 10 5) (mkMatrix 2 10 3)
                  (mkMatrix 2 10 4) _)).
  reflexivity.
Defined.

Lemma mismatch_message_tells_shapes_witness :
  (m_nrow (Matrix_new 2 10) = 2 /\ m_ncol (Matrix_new 2 10) = 10) /\
  (m_nrow (Matrix_new 3 10) = 3 /\ m_ncol (Matrix_new 3 10) = 10).
Proof.
  apply (proj1 (mismatch_message_tells_shapes
                  (Matrix_new 2 10) (Matrix_new 3 10)
                  (mkMatrix 2 10 7) (mkMatrix 3 10 9)
                  "add: dimensions do not match: A: 2x10, B: 3x10"));
    reflexivity.
Defined.

(** * More checks of the sources

    The remaining [static_assert]s and [assert]s, replayed. *)

Example check_sum_helpers :
  let A := Matrix_new 2 5 in
  match add A A with Returns ab => add ab A | o => o end
  = sum_using_initializer_list [A; A; A] /\
  match add A A with Returns ab => add ab A | o => o end
  = sum_using_fold_expression A [A; A].
Proof. split; reflexivity. Qed.

Example check_product_helpers :
  let A := Matrix_new 2 5 in
  let B := Matrix_new 5 10 in
  let C := Matrix_new 10 3 in
  let D := Matrix_new 3 8 in
  product_using_initializer_list [A; B; C; D] = Returns (mkMatrix 2 8 380) /\
  product_using_fold_expression A [B; C; D] = Returns (mkMatrix 2 8 380) /\
  MatrixCpp.calc_mult_flops [A; B; C; D] = Returns 380.
Proof. repeat split. Qed.

Example check_matrix_cpp :
  MatrixCpp.calc_optimal_mult_order ABCD ["A"; "B"; "C"; "D"]
  = MatrixCpp.Completed (Returns ("((A x (B x C)) x D)", 50200)).
Proof. reflexivity. Qed.

Example check_print :
  print (mkMatrix 2 10 164) = "<dims: 2 x 10, flops: 164>".
Proof. reflexivity. Qed.
